(** * A shallow embedding of the muse playback engine (src/services/player.ts)

    The class of [player.ts] is embedded as functions over an explicit
    [State] record.  A method that can throw returns a [Completion] together
    with the state it leaves behind, so that mutations made before a [throw]
    stay visible.  JavaScript numbers are integers ([Z]); arrays are lists with
    the index clamping of [Array.prototype.slice] and [splice] written out.
    The collaborators (file cache, ytdl, prisma, array-shuffle, and the sort
    of the JavaScript engine) are the fields of a [World]; the answers of the
    first four may change with every external call. *)

From Stdlib Require Import ZArith List String Ascii Bool Lia Permutation Sorted.
From Stdlib Require Import DecimalString.
Import ListNotations.
Open Scope string_scope.
Open Scope list_scope.
Open Scope Z_scope.

Set Implicit Arguments.

(** ** JavaScript arrays *)

Module Js.
Section Arrays.
Context {A : Type}.

Definition len (l : list A) : Z := Z.of_nat (List.length l).

  (** Relative index of [slice] and [splice]: a negative index counts from the
      end, and the result is clamped to [0 .. length]. *)
Definition clamp (l : list A) (i : Z) : nat :=
    if i <? 0 then Z.to_nat (Z.max (len l + i) 0) else Z.to_nat (Z.min i (len l)).

  (** [l.slice(start, stop)] *)
Definition slice (l : list A) (start stop : Z) : list A :=
    firstn (clamp l stop - clamp l start) (skipn (clamp l start) l).

  (** [l.slice(start)] *)
Definition slice_from (l : list A) (start : Z) : list A :=
    skipn (clamp l start) l.

  (** [l.splice(start, deleteCount, ...items)]: the removed elements and the
      array as it is left. *)
Definition splice (l : list A) (start deleteCount : Z) (items : list A)
    : list A * list A :=
    let k := clamp l start in
    let d := Z.to_nat (Z.min (Z.max deleteCount 0) (len l - Z.of_nat k)) in
    (firstn d (skipn k l), firstn k l ++ items ++ skipn (k + d) l).

  (** [l[i]] for an integer [i]; [None] is [undefined]. *)
Definition index (l : list A) (i : Z) : option A :=
    if i <? 0 then None else nth_error l (Z.to_nat i).

  (** [l.find(p)] *)
Definition find (p : A -> bool) (l : list A) : option A := List.find p l.

  (** [l.sort(cmp)] for a consistent comparator: the sort is stable, and then
      every stable sort gives the same array; it is written here as an
      insertion sort.  [cmp a b < 0] puts [a] first.  Under a comparator that
      is not consistent the order is left to the implementation: see
      [arraySort] below. *)
Fixpoint insert (cmp : A -> A -> Z) (x : A) (l : list A) : list A :=
    match l with
    | [] => [x]
    | y :: r => if cmp x y <=? 0 then x :: y :: r else y :: insert cmp x r
    end.

Fixpoint sort (cmp : A -> A -> Z) (l : list A) : list A :=
    match l with
    | [] => []
    | x :: r => insert cmp x (sort cmp r)
    end.
End Arrays.

(** [parseInt(s, 10)]: leading white space, an optional sign, then the longest
    run of decimal digits; [None] is [NaN]. *)
Definition digit (c : ascii) : option Z :=
  let n := Z.of_nat (nat_of_ascii c) in
  if (48 <=? n) && (n <=? 57) then Some (n - 48) else None.

Definition is_space (c : ascii) : bool :=
  let n := nat_of_ascii c in
  (Nat.eqb n 32 || Nat.eqb n 9 || Nat.eqb n 10 || Nat.eqb n 11 || Nat.eqb n 12
   || Nat.eqb n 13)%bool.

Fixpoint digits (acc : option Z) (s : string) : option Z :=
  match s with
  | EmptyString => acc
  | String c r =>
      match digit c with
      | Some d => digits (Some (match acc with Some a => 10 * a + d | None => d end)) r
      | None => acc
      end
  end.

Fixpoint trim_start (s : string) : string :=
  match s with
  | String c r => if is_space c then trim_start r else s
  | EmptyString => s
  end.

Definition parseInt (s : string) : option Z :=
  match trim_start s with
  | String "-" r => option_map Z.opp (digits None r)
  | String "+" r => digits None r
  | t => digits None t
  end.

(** [n.toString()] for an integer [n]. *)
Definition toString (n : Z) : string := NilZero.string_of_int (Z.to_int n).

(** Truthiness of a number and of a string. *)
Definition truthy (n : Z) : bool := negb (n =? 0).
Definition truthy_opt (n : option Z) : bool :=
  match n with Some v => truthy v | None => false end.
Definition truthy_str (s : string) : bool := negb (String.eqb s "").
End Js.

(** ** Data model *)

Inductive MediaSource := Youtube | HLS.

Record QueuedPlaylist := { pl_title : string; pl_source : string }.

(** [QueuedSong] (which extends [SongMetadata]). *)
Module Song.
Record t := mk {
    title : string;
    artist : string;
    url : string;
    length : Z;
    offset : Z;
    playlist : option QueuedPlaylist;
    isLive : bool;
    thumbnailUrl : option string;
    source : MediaSource;
    addedInChannelId : string;
    requestedBy : string;
  }.
End Song.

Inductive STATUS := PLAYING | PAUSED | IDLE.

Definition STATUS_eqb (a b : STATUS) : bool :=
  match a, b with
  | PLAYING, PLAYING | PAUSED, PAUSED | IDLE, IDLE => true
  | _, _ => false
  end.

(** The fields of [ytdl.videoFormat] that the player reads.  [itag] is a
    number that [parseInt] maps to itself.  [audioBitrate] is optional: it is
    filled in from a table of known itags, and the player reads it through a
    cast to [{audioBitrate: number}] although it may be [undefined] ([None]). *)
Module Format.
Record t := mk {
    url : string;
    itag : Z;
    codecs : string;
    container : string;
    audioSampleRate : option string;
    isLive : bool;
    audioBitrate : option Z;
    averageBitrate : option Z;
    bitrate : option Z;
  }.
End Format.

(** The fields of [ytdl.videoInfo] that the player reads. *)
Record videoInfo := {
  formats : list Format.t;
  isLiveContent : bool;          (* player_response.videoDetails.isLiveContent *)
  lengthSeconds : string;        (* videoDetails.lengthSeconds *)
}.

(** A thrown value: an [Error] (or [TypeError]) with its message, or the error
    of a collaborator, which may carry a [statusCode]. *)
Record exn := mkExn { ename : string; message : string; statusCode : option Z }.

Definition Error (msg : string) : exn := mkExn "Error" msg None.

Definition NotConnected := Error "Not connected to a voice channel.".
Definition NoSongPlaying := Error "No song currently playing".
Definition SeekOutOfRange := Error "Seek position is outside the range of the song.".
Definition QueueEmpty := Error "Queue empty.".
Definition NotPlaying := Error "Not currently playing.".
Definition SettingsNotFound := Error "Could not find settings for guild".
Definition NoMoreTracks := Error "No songs in queue to forward to.".
Definition NoPreviousTrack := Error "No songs in queue to go back to.".
Definition IndexOutOfRange := Error "Move index is outside the range of the queue.".
Definition NoSuitableFormat := Error "Can't find suitable format.".
(** Reading [formats[0].isLive] when [formats] is empty. *)
Definition UndefinedIsLive :=
  mkExn "TypeError" "Cannot read properties of undefined (reading 'isLive')" None.

Inductive Completion (A : Type) :=
| Return (a : A)
| Throw (e : exn).
Arguments Return {A} a.
Arguments Throw {A} e.

(** What [createReadStream] hands to the audio player: the ffmpeg input, its
    input options, and the cache key the output is tee'd to (if any). *)
Record Stream := {
  input : string;
  inputOptions : list string;
  cacheKey : option string;
}.

Inductive PlayerStatus := ApPlaying | ApPaused | ApIdle.

(** An [AudioPlayer] of @discordjs/voice. *)
Record AudioPlayer := {
  ap_status : PlayerStatus;
  ap_resource : option Stream;
  ap_idleListener : bool;
}.

(** A [VoiceConnection]. *)
Record VoiceConnection := {
  vc_channelId : string;
  vc_guildId : string;
  vc_disconnectListener : bool;
}.

Record VoiceChannel := { ch_id : string; ch_guildId : string }.

(** An array element: [None] is [undefined], which [move] can store. *)
Definition Slot := option Song.t.

(** The collaborators.  An answer of the first four is indexed by the number
    of external calls made so far, so that it may differ from one call to the
    next.

    [arraySort cmp l] is [l.sort(cmp)] as the JavaScript engine runs it on an
    array of formats, [cmp] giving the comparator's result with [NaN] read as
    [+0] (which is how the sort reads it).  It is a collaborator because the
    order it leaves under an inconsistent comparator is implementation-defined;
    what the standard guarantees of it is [sorts], below. *)
Record World := {
  hasha : string -> string;
  getPathFor : nat -> string -> option string;        (* fileCache; None: throws *)
  getInfo : nat -> string -> Completion videoInfo;    (* ytdl.getInfo *)
  findUnique : nat -> string -> option Z;             (* secondsToWaitAfterQueueEmpties *)
  arrayShuffle : nat -> list Slot -> list Slot;
  arraySort : (Format.t -> Format.t -> Z) -> list Format.t -> list Format.t;
}.

(** ** The engine's state

    The fields of the class, followed by the part of the event loop the class
    acts on: the pending timeouts armed by [setTimeout], and a count of the
    external calls made, which indexes the answers of the [World]. *)
Record State := mkState {
  guildId : string;
  voiceConnection : option VoiceConnection;  (* None: null *)
  status : STATUS;
  loopCurrentSong : bool;
  queue : list Slot;
  queuePosition : Z;
  audioPlayer : option AudioPlayer;
  nowPlaying : option Song.t;
  playPositionInterval : bool;  (* an interval is ticking *)
  lastSongURL : string;
  positionInSeconds : Z;
  disconnectTimer : option nat;  (* handle of the last timeout armed *)
  timeouts : list (nat * Z);  (* pending timeouts of the event loop: handle, delay in ms *)
  nextTimeout : nat;  (* next fresh handle *)
  clock : nat;  (* external calls made so far *)
}.

(** Field updates. *)
Definition set_guildId (v : string) (s : State) : State :=
  mkState v (voiceConnection s) (status s) (loopCurrentSong s) (queue s)
    (queuePosition s) (audioPlayer s) (nowPlaying s) (playPositionInterval s)
    (lastSongURL s) (positionInSeconds s) (disconnectTimer s) (timeouts s)
    (nextTimeout s) (clock s).
Definition set_voiceConnection (v : option VoiceConnection) (s : State) : State :=
  mkState (guildId s) v (status s) (loopCurrentSong s) (queue s) (queuePosition s)
    (audioPlayer s) (nowPlaying s) (playPositionInterval s) (lastSongURL s)
    (positionInSeconds s) (disconnectTimer s) (timeouts s) (nextTimeout s) (clock s).
Definition set_status (v : STATUS) (s : State) : State :=
  mkState (guildId s) (voiceConnection s) v (loopCurrentSong s) (queue s)
    (queuePosition s) (audioPlayer s) (nowPlaying s) (playPositionInterval s)
    (lastSongURL s) (positionInSeconds s) (disconnectTimer s) (timeouts s)
    (nextTimeout s) (clock s).
Definition set_loopCurrentSong (v : bool) (s : State) : State :=
  mkState (guildId s) (voiceConnection s) (status s) v (queue s) (queuePosition s)
    (audioPlayer s) (nowPlaying s) (playPositionInterval s) (lastSongURL s)
    (positionInSeconds s) (disconnectTimer s) (timeouts s) (nextTimeout s) (clock s).
Definition set_queue (v : list Slot) (s : State) : State :=
  mkState (guildId s) (voiceConnection s) (status s) (loopCurrentSong s) v
    (queuePosition s) (audioPlayer s) (nowPlaying s) (playPositionInterval s)
    (lastSongURL s) (positionInSeconds s) (disconnectTimer s) (timeouts s)
    (nextTimeout s) (clock s).
Definition set_queuePosition (v : Z) (s : State) : State :=
  mkState (guildId s) (voiceConnection s) (status s) (loopCurrentSong s) (queue s) v
    (audioPlayer s) (nowPlaying s) (playPositionInterval s) (lastSongURL s)
    (positionInSeconds s) (disconnectTimer s) (timeouts s) (nextTimeout s) (clock s).
Definition set_audioPlayer (v : option AudioPlayer) (s : State) : State :=
  mkState (guildId s) (voiceConnection s) (status s) (loopCurrentSong s) (queue s)
    (queuePosition s) v (nowPlaying s) (playPositionInterval s) (lastSongURL s)
    (positionInSeconds s) (disconnectTimer s) (timeouts s) (nextTimeout s) (clock s).
Definition set_nowPlaying (v : option Song.t) (s : State) : State :=
  mkState (guildId s) (voiceConnection s) (status s) (loopCurrentSong s) (queue s)
    (queuePosition s) (audioPlayer s) v (playPositionInterval s) (lastSongURL s)
    (positionInSeconds s) (disconnectTimer s) (timeouts s) (nextTimeout s) (clock s).
Definition set_playPositionInterval (v : bool) (s : State) : State :=
  mkState (guildId s) (voiceConnection s) (status s) (loopCurrentSong s) (queue s)
    (queuePosition s) (audioPlayer s) (nowPlaying s) v (lastSongURL s)
    (positionInSeconds s) (disconnectTimer s) (timeouts s) (nextTimeout s) (clock s).
Definition set_lastSongURL (v : string) (s : State) : State :=
  mkState (guildId s) (voiceConnection s) (status s) (loopCurrentSong s) (queue s)
    (queuePosition s) (audioPlayer s) (nowPlaying s) (playPositionInterval s) v
    (positionInSeconds s) (disconnectTimer s) (timeouts s) (nextTimeout s) (clock s).
Definition set_positionInSeconds (v : Z) (s : State) : State :=
  mkState (guildId s) (voiceConnection s) (status s) (loopCurrentSong s) (queue s)
    (queuePosition s) (audioPlayer s) (nowPlaying s) (playPositionInterval s)
    (lastSongURL s) v (disconnectTimer s) (timeouts s) (nextTimeout s) (clock s).
Definition set_disconnectTimer (v : option nat) (s : State) : State :=
  mkState (guildId s) (voiceConnection s) (status s) (loopCurrentSong s) (queue s)
    (queuePosition s) (audioPlayer s) (nowPlaying s) (playPositionInterval s)
    (lastSongURL s) (positionInSeconds s) v (timeouts s) (nextTimeout s) (clock s).
Definition set_timeouts (v : list (nat * Z)) (s : State) : State :=
  mkState (guildId s) (voiceConnection s) (status s) (loopCurrentSong s) (queue s)
    (queuePosition s) (audioPlayer s) (nowPlaying s) (playPositionInterval s)
    (lastSongURL s) (positionInSeconds s) (disconnectTimer s) v (nextTimeout s)
    (clock s).
Definition set_nextTimeout (v : nat) (s : State) : State :=
  mkState (guildId s) (voiceConnection s) (status s) (loopCurrentSong s) (queue s)
    (queuePosition s) (audioPlayer s) (nowPlaying s) (playPositionInterval s)
    (lastSongURL s) (positionInSeconds s) (disconnectTimer s) (timeouts s) v
    (clock s).
Definition set_clock (v : nat) (s : State) : State :=
  mkState (guildId s) (voiceConnection s) (status s) (loopCurrentSong s) (queue s)
    (queuePosition s) (audioPlayer s) (nowPlaying s) (playPositionInterval s)
    (lastSongURL s) (positionInSeconds s) (disconnectTimer s) (timeouts s)
    (nextTimeout s) v.

Definition M (A : Type) : Type := State -> Completion A * State.

(** One external call: its index is the clock before the call. *)
Definition tick (s : State) : State := set_clock (S (clock s)) s.

(** ** StreamPipeline: [getStream] and [createReadStream] *)

Section Pipeline.
Variable w : World.

Definition getHashForCache (url : string) : string := hasha w url.

(** [createReadStream(url, options)]: the promise always resolves with the
    returned stream; [options] is [None] when the argument is left out. *)
Definition createReadStream (url : string) (options : option (list string * bool))
  : Stream :=
  {| input := url;
     inputOptions := match options with Some (o, _) => o | None => ["-re"] end;
     cacheKey := match options with
                 | Some (_, true) => Some (getHashForCache url)
                 | _ => None
                 end |}.

(** The [filter] of [getStream]: opus in webm at 48000 Hz. *)
Definition targetFormat (f : Format.t) : bool :=
  String.eqb (Format.codecs f) "opus" && String.eqb (Format.container f) "webm"
  && match Format.audioSampleRate f with
     | Some r => match Js.parseInt r with Some n => n =? 48000 | None => false end
     | None => false
     end.

Definition preferredItags : list Z := [128; 127; 120; 96; 95; 94; 93].

Definition hasPreferredItag (f : Format.t) : bool :=
  existsb (Z.eqb (Format.itag f)) preferredItags.

Definition hasAverageBitrate (f : Format.t) : bool :=
  Js.truthy_opt (Format.averageBitrate f).

Definition lacksBitrate (f : Format.t) : bool :=
  negb (Js.truthy_opt (Format.bitrate f)).

(** [averageBitrate!]: read only after the filter on [hasAverageBitrate]. *)
Definition avg (f : Format.t) : Z :=
  match Format.averageBitrate f with Some v => v | None => 0 end.

(** [b.audioBitrate - a.audioBitrate]: [NaN] as soon as one of the two is
    [undefined], and the sort reads [NaN] as [+0]. *)
Definition byAudioBitrate (a b : Format.t) : Z :=
  match Format.audioBitrate b, Format.audioBitrate a with
  | Some x, Some y => x - y
  | _, _ => 0
  end.

Definition byAverageBitrate (a b : Format.t) : Z := avg b - avg a.

(** [nextBestFormat]; reading [formats[0].isLive] of an empty array throws. *)
Definition nextBestFormat (formats : list Format.t) : Completion (option Format.t) :=
  match formats with
  | [] => Throw UndefinedIsLive
  | f0 :: _ =>
      if Format.isLive f0 then
        let formats := arraySort w byAudioBitrate formats in
        Return (Js.find hasPreferredItag formats)
      else
        let formats := arraySort w byAverageBitrate (filter hasAverageBitrate formats) in
        Return (match Js.find lacksBitrate formats with
                | Some f => Some f
                | None => Js.index formats 0
                end)
  end.

(** The choice of a format on a cache miss. *)
Definition selectFormat (formats : list Format.t) : Completion Format.t :=
  match Js.find targetFormat formats with
  | Some f => Return f
  | None =>
      match nextBestFormat formats with
      | Throw e => Throw e
      | Return None => Throw NoSuitableFormat
      | Return (Some f) => Return f
      end
  end.

Definition MAX_CACHE_LENGTH_SECONDS : Z := 30 * 60.

Definition trimOptions (seek to : option Z) : list string :=
  (match seek with
   | Some p => if Js.truthy p then ["-ss"; Js.toString p] else []
   | None => []
   end) ++
  (match to with
   | Some p => if Js.truthy p then ["-to"; Js.toString p] else []
   | None => []
   end).

Definition reconnectOptions : list string :=
  ["-reconnect"; "1"; "-reconnect_streamed"; "1"; "-reconnect_delay_max"; "5"].

Definition shouldCache (info : videoInfo) (seek to : option Z) : bool :=
  negb (isLiveContent info)
  && match Js.parseInt (lengthSeconds info) with
     | Some n => n <? MAX_CACHE_LENGTH_SECONDS
     | None => false
     end
  && negb (Js.truthy_opt seek) && negb (Js.truthy_opt to).

(** [getStream(song, {seek, to})] *)
Definition getStream (song : Song.t) (seek to : option Z) : M Stream := fun s =>
  match Song.source song with
  | HLS => (Return (createReadStream (Song.url song) None), s)
  | Youtube =>
      let hit := getPathFor w (clock s) (getHashForCache (Song.url song)) in
      let s := tick s in
      match hit with
      | Some path =>
          (Return (createReadStream path (Some (trimOptions seek to, false))), s)
      | None =>
          (* Not yet cached, must download *)
          let got := getInfo w (clock s) (Song.url song) in
          let s := tick s in
          match got with
          | Throw e => (Throw e, s)
          | Return info =>
              match selectFormat (formats info) with
              | Throw e => (Throw e, s)
              | Return format =>
                  (Return (createReadStream (Format.url format)
                             (Some (reconnectOptions ++ trimOptions seek to,
                                    shouldCache info seek to))), s)
              end
          end
      end
  end.

End Pipeline.

(** ** PlaybackEngine *)

(** [new Player(fileCache, guildId)] *)
Definition fresh (guildId : string) : State :=
  mkState guildId None PAUSED false [] 0 None None false "" 0 None [] 0 0.

Definition ap_play (stream : Stream) : AudioPlayer :=
  {| ap_status := ApPlaying; ap_resource := Some stream; ap_idleListener := false |}.

Definition ap_pause (p : AudioPlayer) : AudioPlayer :=
  match ap_status p with
  | ApPlaying =>
      {| ap_status := ApPaused; ap_resource := ap_resource p;
         ap_idleListener := ap_idleListener p |}
  | _ => p
  end.

Definition ap_unpause (p : AudioPlayer) : AudioPlayer :=
  match ap_status p with
  | ApPaused =>
      {| ap_status := ApPlaying; ap_resource := ap_resource p;
         ap_idleListener := ap_idleListener p |}
  | _ => p
  end.

Definition ap_stop (p : AudioPlayer) : AudioPlayer :=
  {| ap_status := ApIdle; ap_resource := None; ap_idleListener := ap_idleListener p |}.

(** [this.audioPlayer?.stop()] *)
Definition stopAudioPlayer (s : State) : State :=
  match audioPlayer s with
  | Some p => set_audioPlayer (Some (ap_stop p)) s
  | None => s
  end.

Definition connect (channel : VoiceChannel) (s : State) : State :=
  set_voiceConnection
    (Some {| vc_channelId := ch_id channel; vc_guildId := ch_guildId channel;
             vc_disconnectListener := false |}) s.

Definition getCurrent (s : State) : option Song.t :=
  match Js.index (queue s) (queuePosition s) with
  | Some (Some song) => Some song
  | _ => None
  end.

(** Returns queue, not including the current song. *)
Definition getQueue (s : State) : list Slot :=
  Js.slice_from (queue s) (queuePosition s + 1).

Definition queueSize (s : State) : Z := Js.len (getQueue s).

Definition isQueueEmpty (s : State) : bool := queueSize s =? 0.

Definition getPosition (s : State) : Z := positionInSeconds s.

Definition startTrackingPosition (initalPosition : option Z) (s : State) : State :=
  let s := match initalPosition with
           | Some p => set_positionInSeconds p s
           | None => s
           end in
  set_playPositionInterval true s.

Definition stopTrackingPosition (s : State) : State :=
  set_playPositionInterval false s.

Definition attachListeners (s : State) : State :=
  match voiceConnection s with
  | None => s
  | Some vc =>
      let s := set_voiceConnection
                 (Some {| vc_channelId := vc_channelId vc; vc_guildId := vc_guildId vc;
                          vc_disconnectListener := true |}) s in
      match audioPlayer s with
      | None => s
      | Some p =>
          set_audioPlayer
            (Some {| ap_status := ap_status p; ap_resource := ap_resource p;
                     ap_idleListener := true |}) s
      end
  end.

Definition pause : M unit := fun s =>
  if negb (STATUS_eqb (status s) PLAYING) then (Throw NotPlaying, s)
  else
    let s := set_status PAUSED s in
    let s := match audioPlayer s with
             | Some p => set_audioPlayer (Some (ap_pause p)) s
             | None => s
             end in
    (Return tt, stopTrackingPosition s).

Definition disconnect (s : State) : State :=
  match voiceConnection s with
  | None => s
  | Some _ =>
      let s := if STATUS_eqb (status s) PLAYING then snd (pause s) else s in
      let s := set_loopCurrentSong false s in
      let s := stopAudioPlayer s in
      let s := set_voiceConnection None s in
      set_audioPlayer None s
  end.

(** [clearInterval(handle)] on a pending timeout. *)
Definition clearTimer (h : nat) (s : State) : State :=
  set_timeouts (filter (fun t => negb (Nat.eqb (fst t) h)) (timeouts s)) s.

(** [setTimeout(callback, ms)]: the handle is fresh. *)
Definition setTimeout (ms : Z) (s : State) : nat * State :=
  let h := nextTimeout s in
  (h, set_nextTimeout (S h) (set_timeouts (timeouts s ++ [(h, ms)]) s)).

(** Cancel any pending idle disconnection *)
Definition cancelDisconnectTimer (s : State) : State :=
  match disconnectTimer s with
  | Some h => set_disconnectTimer None (clearTimer h s)
  | None => s
  end.

Definition canGoForward (skip : Z) (s : State) : bool :=
  queuePosition s + skip - 1 <? Js.len (queue s).

Definition manualForward (skip : Z) : M unit := fun s =>
  if canGoForward skip s then
    let s := set_queuePosition (queuePosition s + skip) s in
    let s := set_positionInSeconds 0 s in
    (Return tt, stopTrackingPosition s)
  else (Throw NoMoreTracks, s).

Definition canGoBack (s : State) : bool := queuePosition s - 1 >=? 0.

Section Engine.
Variable w : World.

Definition seek (positionSeconds : Z) : M unit := fun s =>
  let s := set_status PAUSED s in
  match voiceConnection s with
  | None => (Throw NotConnected, s)
  | Some _ =>
      match getCurrent s with
      | None => (Throw NoSongPlaying, s)
      | Some currentSong =>
          if positionSeconds >? Song.length currentSong then (Throw SeekOutOfRange, s)
          else
            let realPositionSeconds := positionSeconds + Song.offset currentSong in
            let to := Song.length currentSong + Song.offset currentSong in
            match getStream w currentSong (Some realPositionSeconds) (Some to) s with
            | (Throw e, s) => (Throw e, s)
            | (Return stream, s) =>
                let s := set_audioPlayer (Some (ap_play stream)) s in
                let s := attachListeners s in
                let s := startTrackingPosition (Some positionSeconds) s in
                (Return tt, set_status PLAYING s)
            end
      end
  end.

Definition forwardSeek (positionSeconds : Z) : M unit := fun s =>
  seek (positionInSeconds s + positionSeconds) s.

(** [play] and [forward] call each other; the recursion is cut by a fuel
    argument, [None] meaning that the fuel ran out. *)
Definition MF (A : Type) : Type := State -> option (Completion A * State).

Definition resumes (currentSong : Song.t) (s : State) : bool :=
  STATUS_eqb (status s) PAUSED
  && match nowPlaying s with
     | Some np => String.eqb (Song.url currentSong) (Song.url np)
     | None => false
     end.

Definition is410 (error : exn) : bool :=
  match statusCode error with Some c => c =? 410 | None => false end.

(** The [try] block of [play] with its handler; [forward1] is [forward(1)]. *)
Definition play_fetch (forward1 : MF unit) (currentSong : Song.t) : MF unit := fun s =>
  match getStream w currentSong (Some (Song.offset currentSong))
          (Some (Song.length currentSong + Song.offset currentSong)) s with
  | (Return stream, s) =>
      let s := set_audioPlayer (Some (ap_play stream)) s in
      let s := attachListeners s in
      let s := set_status PLAYING s in
      let s := set_nowPlaying (Some currentSong) s in
      if String.eqb (Song.url currentSong) (lastSongURL s) then
        Some (Return tt, startTrackingPosition None s)
      else
        (* Reset position counter *)
        let s := startTrackingPosition (Some 0) s in
        Some (Return tt, set_lastSongURL (Song.url currentSong) s)
  | (Throw error, s) =>
      match forward1 s with
      | None => None
      | Some (Throw e, s) => Some (Throw e, s)
      | Some (Return _, s) =>
          if is410 error && Js.truthy_str (Song.addedInChannelId currentSong)
          then Some (Return tt, s)
          else Some (Throw error, s)
      end
  end.

Definition play_with (forward1 : MF unit) : MF unit := fun s =>
  match voiceConnection s with
  | None => Some (Throw NotConnected, s)
  | Some _ =>
      match getCurrent s with
      | None => Some (Throw QueueEmpty, s)
      | Some currentSong =>
          let s := cancelDisconnectTimer s in
          (* Resume from paused state *)
          if resumes currentSong s then
            match audioPlayer s with
            | Some p =>
                let s := set_audioPlayer (Some (ap_unpause p)) s in
                let s := set_status PLAYING s in
                Some (Return tt, startTrackingPosition None s)
            | None =>
                (* Was disconnected, need to recreate stream *)
                if negb (Song.isLive currentSong) then Some (seek (getPosition s) s)
                else play_fetch forward1 currentSong s
            end
          else play_fetch forward1 currentSong s
      end
  end.

(** The [else] branch of [forward]: stop, go idle, arm the disconnect timer. *)
Definition goIdle : M unit := fun s =>
  let s := stopAudioPlayer s in
  let s := set_status IDLE s in
  let settings := findUnique w (clock s) (guildId s) in
  let s := tick s in
  match settings with
  | None => (Throw SettingsNotFound, s)
  | Some secondsToWaitAfterQueueEmpties =>
      if negb (secondsToWaitAfterQueueEmpties =? 0) then
        let (h, s) := setTimeout (secondsToWaitAfterQueueEmpties * 1000) s in
        (Return tt, set_disconnectTimer (Some h) s)
      else (Return tt, s)
  end.

(** The handler of [forward]: [this.queuePosition--; throw error]. *)
Definition forward_catch (attempt : Completion unit * State) : Completion unit * State :=
  match attempt with
  | (Return _, s) => (Return tt, s)
  | (Throw error, s) => (Throw error, set_queuePosition (queuePosition s - 1) s)
  end.

Definition forward_with (play : MF unit) (skip : Z) : MF unit := fun s =>
  match manualForward skip s with
  | (Throw e, s) => Some (Throw e, s)
  | (Return _, s) =>
      let attempt :=
        match getCurrent s with
        | Some _ =>
            if negb (STATUS_eqb (status s) PAUSED) then play s else Some (goIdle s)
        | None => Some (goIdle s)
        end in
      option_map forward_catch attempt
  end.

Fixpoint play_n (n : nat) : MF unit :=
  match n with
  | O => fun _ => None
  | S n => play_with (forward_with (play_n n) 1)
  end.

Definition forward_n (n : nat) (skip : Z) : MF unit := forward_with (play_n n) skip.

Definition back_n (n : nat) : MF unit := fun s =>
  if canGoBack s then
    let s := set_queuePosition (queuePosition s - 1) s in
    let s := set_positionInSeconds 0 s in
    let s := stopTrackingPosition s in
    if negb (STATUS_eqb (status s) PAUSED) then play_n n s else Some (Return tt, s)
  else Some (Throw NoPreviousTrack, s).

(** The listener on the audio player's [Idle] event ([newState.status] is
    [Idle] when it runs). *)
Definition onAudioPlayerIdle_n (n : nat) : MF unit := fun s =>
  if loopCurrentSong s && STATUS_eqb (status s) PLAYING then Some (seek 0 s)
  else if STATUS_eqb (status s) PLAYING then forward_n n 1 s
  else Some (Return tt, s).

(** Every nested [play] stands on a later queue entry, so the queue's length
    (plus one) is fuel enough. *)
Definition fuel (s : State) : nat := S (List.length (queue s)).

Definition run {A : Type} (m : MF A) : M A := fun s =>
  match m s with
  | Some r => r
  | None => (Throw (Error "out of fuel"), s)
  end.

Definition play : M unit := fun s => run (play_n (fuel s)) s.
Definition forward (skip : Z) : M unit := fun s => run (forward_n (fuel s) skip) s.
Definition back : M unit := fun s => run (back_n (fuel s)) s.
Definition onAudioPlayerIdle : M unit := fun s => run (onAudioPlayerIdle_n (fuel s)) s.

(** ** Queue mutators *)

Definition add (song : Song.t) (immediate : bool) (s : State) : State :=
  match Song.playlist song, immediate with
  | None, true =>
      (* Add as the next song to be played *)
      let insertAt := queuePosition s + 1 in
      set_queue (Js.slice (queue s) 0 insertAt ++ [Some song]
                 ++ Js.slice_from (queue s) insertAt) s
  | _, _ =>
      (* Add to end of queue *)
      set_queue (queue s ++ [Some song]) s
  end.

Definition shuffle (s : State) : State :=
  let shuffledSongs := arrayShuffle w (clock s) (Js.slice_from (queue s) (queuePosition s + 1)) in
  let s := tick s in
  set_queue (Js.slice (queue s) 0 (queuePosition s + 1) ++ shuffledSongs) s.

Definition clear (s : State) : State :=
  let newQueue := match getCurrent s with
                  | Some current => [Some current]
                  | None => []
                  end in
  set_queue newQueue (set_queuePosition 0 s).

(** [removeFromQueue(index, amount)]; an omitted [amount] is 1. *)
Definition removeFromQueue (index amount : Z) (s : State) : State :=
  set_queue (snd (Js.splice (queue s) (queuePosition s + index) amount [])) s.

Definition removeCurrent (s : State) : State :=
  set_queue (Js.slice (queue s) 0 (queuePosition s)
             ++ Js.slice_from (queue s) (queuePosition s + 1)) s.

Definition stop (s : State) : State :=
  let s := disconnect s in
  set_queue [] (set_queuePosition 0 s).

(** [move(from, to)]: the inner [splice] runs first; when it removes nothing
    its [[0]] is [undefined], and that is what the outer [splice] inserts. *)
Definition move (from to : Z) : M Slot := fun s =>
  if (from >? queueSize s) || (to >? queueSize s) then (Throw IndexOutOfRange, s)
  else
    let (removed, q1) := Js.splice (queue s) (queuePosition s + from) 1 [] in
    let item : Slot := match removed with x :: _ => x | [] => None end in
    let q2 := snd (Js.splice q1 (queuePosition s + to) 0 [item]) in
    (Return (match Js.index q2 (queuePosition s + to) with Some x => x | None => None end),
     set_queue q2 s).

(** ** Events of the event loop *)

(** The callback armed by [forward] runs for the pending timeout [h]. *)
Definition disconnectIfIdle (s : State) : State :=
  (* Make sure we are not accidentally playing when disconnecting *)
  if STATUS_eqb (status s) IDLE then disconnect s else s.

Definition timeoutFires (h : nat) (s : State) : State :=
  if existsb (fun t => Nat.eqb (fst t) h) (timeouts s)
  then disconnectIfIdle (clearTimer h s)
  else s.

(** One tick of the position interval. *)
Definition positionTick (s : State) : State :=
  if playPositionInterval s then set_positionInSeconds (positionInSeconds s + 1) s else s.

Definition onVoiceConnectionDisconnect (s : State) : State := disconnect s.

(** ** Operations as labels *)

Inductive Op :=
| OpConnect (channel : VoiceChannel)
| OpDisconnect
| OpSeek (positionSeconds : Z)
| OpForwardSeek (positionSeconds : Z)
| OpPlay
| OpPause
| OpForward (skip : Z)
| OpBack
| OpAdd (song : Song.t) (immediate : bool)
| OpShuffle
| OpClear
| OpRemoveFromQueue (index amount : Z)
| OpRemoveCurrent
| OpStop
| OpMove (from to : Z)
| EvAudioPlayerIdle
| EvVoiceDisconnected
| EvTimeout (h : nat)
| EvTick.

Definition done (s : State) : Completion unit * State := (Return tt, s).

Definition discard {A : Type} (r : Completion A * State) : Completion unit * State :=
  match r with
  | (Return _, s) => (Return tt, s)
  | (Throw e, s) => (Throw e, s)
  end.

Definition exec (op : Op) : M unit := fun s =>
  match op with
  | OpConnect channel => done (connect channel s)
  | OpDisconnect => done (disconnect s)
  | OpSeek p => seek p s
  | OpForwardSeek p => forwardSeek p s
  | OpPlay => play s
  | OpPause => pause s
  | OpForward skip => forward skip s
  | OpBack => back s
  | OpAdd song immediate => done (add song immediate s)
  | OpShuffle => done (shuffle s)
  | OpClear => done (clear s)
  | OpRemoveFromQueue index amount => done (removeFromQueue index amount s)
  | OpRemoveCurrent => done (removeCurrent s)
  | OpStop => done (stop s)
  | OpMove from to => discard (move from to s)
  | EvAudioPlayerIdle => onAudioPlayerIdle s
  | EvVoiceDisconnected => done (onVoiceConnectionDisconnect s)
  | EvTimeout h => done (timeoutFires h s)
  | EvTick => done (positionTick s)
  end.

End Engine.

(** ** Runs and example data *)

(** The state left by a sequence of operations, whatever each one returns. *)
Definition runOps (w : World) (ops : list Op) (s : State) : State :=
  fold_left (fun s op => snd (exec w op s)) ops s.

Definition mkSong (title url : string) (length : Z) : Song.t :=
  Song.mk title "artist" url length 0 None false None Youtube "channel-1" "user-1".

Definition songA : Song.t := mkSong "A" "https://example.org/a" 180.
Definition songB : Song.t := mkSong "B" "https://example.org/b" 200.
Definition songC : Song.t := mkSong "C" "https://example.org/c" 240.

Definition channel1 : VoiceChannel := {| ch_id := "voice-1"; ch_guildId := "guild-1" |}.

Definition gone : exn := mkExn "Error" "Status code: 410" (Some 410).
Definition unavailable : exn := mkExn "Error" "Status code: 503" (Some 503).

(** Every track is cached; settings ask for a wait of 30 seconds. *)
Definition world_cached : World :=
  {| hasha := fun u => u;
     getPathFor := fun _ h => Some h;
     getInfo := fun _ _ => Throw unavailable;
     findUnique := fun _ _ => Some 30;
     arrayShuffle := fun _ l => rev l;
     arraySort := fun cmp l => Js.sort cmp l |}.

(** Nothing is cached and every lookup answers 410. *)
Definition world_gone (settings : option Z) : World :=
  {| hasha := fun u => u;
     getPathFor := fun _ _ => None;
     getInfo := fun _ _ => Throw gone;
     findUnique := fun _ _ => settings;
     arrayShuffle := fun _ l => rev l;
     arraySort := fun cmp l => Js.sort cmp l |}.

(** Nothing is cached and every lookup answers 503. *)
Definition world_unavailable (settings : option Z) : World :=
  {| hasha := fun u => u;
     getPathFor := fun _ _ => None;
     getInfo := fun _ _ => Throw unavailable;
     findUnique := fun _ _ => settings;
     arrayShuffle := fun _ l => rev l;
     arraySort := fun cmp l => Js.sort cmp l |}.

(** A connected engine playing [songA], with [songB] and [songC] queued. *)
Definition playingA : State :=
  runOps world_cached
    [OpConnect channel1; OpAdd songA false; OpAdd songB false; OpAdd songC false; OpPlay]
    (fresh "guild-1").

(** The queue has run out, the idle timer has fired and disconnected. *)
Definition idleDisconnected : State :=
  runOps world_cached
    [OpConnect channel1; OpAdd songA false; OpAdd songB false; OpPlay;
     OpForward 1; OpForward 1; EvTimeout 0%nat]
    (fresh "guild-1").

(** The state [forward(skip)] examines once the cursor has moved. *)
Definition advanced (skip : Z) (s : State) : State := snd (manualForward skip s).

(** [playingA], paused. *)
Definition pausedA : State := snd (pause playingA).

(** [play()] gets as far as its [try] block: it is not resuming the paused
    track, or it is and the player is gone and the track is live. *)
Definition reachesFetch (currentSong : Song.t) (s : State) : bool :=
  if resumes currentSong s then
    match audioPlayer s with
    | Some _ => false
    | None => Song.isLive currentSong
    end
  else true.

(** The call of [getStream] in the [try] block of [play]. *)
Definition playFetch (w : World) (currentSong : Song.t) (s : State)
  : Completion Stream * State :=
  getStream w currentSong (Some (Song.offset currentSong))
    (Some (Song.length currentSong + Song.offset currentSong))
    (cancelDisconnectTimer s).



(** [songB] is not cached and its lookup answers 503; the others are cached. *)
Definition world_b_unavailable : World :=
  {| hasha := fun u => u;
     getPathFor := fun _ h => if String.eqb h (Song.url songB) then None else Some h;
     getInfo := fun _ _ => Throw unavailable;
     findUnique := fun _ _ => Some 30;
     arrayShuffle := fun _ l => rev l;
     arraySort := fun cmp l => Js.sort cmp l |}.

(** A connected engine that has not played yet, with [songA] queued. *)
Definition readyA : State :=
  runOps world_cached [OpConnect channel1; OpAdd songA false] (fresh "guild-1").

(** The timeout [h] is pending. *)
Definition pending (h : nat) (s : State) : bool :=
  existsb (fun t => Nat.eqb (fst t) h) (timeouts s).

(** Every operation but [play], [seek], [forwardSeek] and [forward]. *)
Definition quiet (op : Op) : Prop :=
  match op with
  | OpPlay | OpSeek _ | OpForwardSeek _ | OpForward _ => False
  | _ => True
  end.

(** Operations that cannot reach [forward]. *)
Definition noForward (op : Op) : Prop :=
  match op with
  | OpPlay | OpForward _ | OpBack | EvAudioPlayerIdle => False
  | _ => True
  end.

(** A fresh engine with two tracks queued, then [forward(1)]. *)
Definition freshForwarded : State :=
  runOps world_cached [OpAdd songA false; OpAdd songB false; OpForward 1] (fresh "guild-1").

(** ** The queue invariant *)

Definition cursor_in_range (s : State) : Prop :=
  0 <= queuePosition s <= Js.len (queue s).

(** Arguments in the range the operations are written for: a skip of at least
    one track, and a removal index that does not reach before the cursor. *)
Definition valid_op (op : Op) : Prop :=
  match op with
  | OpForward skip => 1 <= skip
  | OpRemoveFromQueue index _ => 0 <= index
  | _ => True
  end.

(** array-shuffle returns a permutation of its argument. *)
Definition shuffles (w : World) : Prop :=
  forall t l, Permutation l (arrayShuffle w t l).

(** What the standard guarantees of [Array.prototype.sort]: the result is a
    permutation of the array, and when the comparator ranks the elements by a
    key (so that it is consistent) the result is the one stable sort of them. *)
Definition sorts (w : World) : Prop :=
  forall (cmp : Format.t -> Format.t -> Z) (l : list Format.t),
    Permutation l (arraySort w cmp l)
    /\ forall key : Format.t -> Z,
         (forall a b, In a l -> In b l -> cmp a b = key b - key a) ->
         arraySort w cmp l = Js.sort cmp l.

(** States reached from a new engine; the collaborators may answer differently
    at every step, and a step counts whether it returns or throws. *)
Inductive reachable : State -> Prop :=
| reach_fresh (guildId : string) : reachable (fresh guildId)
| reach_step (w : World) (op : Op) (s : State) :
    reachable s -> shuffles w -> valid_op op -> reachable (snd (exec w op s)).

(** The same, whatever the arguments. *)
Inductive reachable_any : State -> Prop :=
| reach_any_fresh (guildId : string) : reachable_any (fresh guildId)
| reach_any_step (w : World) (op : Op) (s : State) :
    reachable_any s -> shuffles w -> reachable_any (snd (exec w op s)).

(** ** Format selection, in the words of the specification *)

(** [l] lists its candidates by descending [key]. *)
Definition descending (key : Format.t -> Z) (l : list Format.t) : Prop :=
  StronglySorted (fun a b => key a >= key b) l.

(** The audio bitrate of a candidate that carries one. *)
Definition audio (f : Format.t) : Z :=
  match Format.audioBitrate f with Some v => v | None => 0 end.

(** Every candidate carries an audio bitrate. *)
Definition rated (l : list Format.t) : Prop :=
  forall f, In f l -> Format.audioBitrate f <> None.

(** The order of selection on a cache miss, [live] saying whether the ranking
    of live content applies: a candidate in the target codec, container and
    sample rate first; else, for live content, the candidates in the order the
    sort leaves them, which is by descending audio bitrate when each of them
    carries one, and the first with a preferred itag; else the candidates with
    a known average bitrate by descending average bitrate, the first without a
    bitrate tag, or failing that the first of all; NoSuitableFormat when
    nothing is left. *)
Inductive selects (live : bool) (candidates : list Format.t) : Completion Format.t -> Prop :=
| select_target (f : Format.t) :
    find targetFormat candidates = Some f ->
    selects live candidates (Return f)
| select_live (sorted : list Format.t) (f : Format.t) :
    find targetFormat candidates = None -> live = true ->
    Permutation candidates sorted -> (rated candidates -> descending audio sorted) ->
    find hasPreferredItag sorted = Some f ->
    selects live candidates (Return f)
| select_live_none :
    find targetFormat candidates = None -> live = true ->
    find hasPreferredItag candidates = None ->
    selects live candidates (Throw NoSuitableFormat)
| select_untagged (sorted : list Format.t) (f : Format.t) :
    find targetFormat candidates = None -> live = false ->
    Permutation (filter hasAverageBitrate candidates) sorted -> descending avg sorted ->
    find lacksBitrate sorted = Some f ->
    selects live candidates (Return f)
| select_highest (sorted : list Format.t) (f : Format.t) :
    find targetFormat candidates = None -> live = false ->
    Permutation (filter hasAverageBitrate candidates) sorted -> descending avg sorted ->
    find lacksBitrate sorted = None -> head sorted = Some f ->
    selects live candidates (Return f)
| select_none :
    find targetFormat candidates = None -> live = false ->
    filter hasAverageBitrate candidates = [] ->
    selects live candidates (Throw NoSuitableFormat).

(** A live broadcast whose only candidate is not flagged live. *)
Definition liveSong : Song.t :=
  Song.mk "Live" "artist" "https://example.org/live" 0 0 None true None Youtube
    "channel-1" "user-1".

Definition aac140 : Format.t :=
  Format.mk "https://cdn.example.org/140" 140 "mp4a.40.2" "mp4" (Some "44100")
    false (Some 128) (Some 129000) None.

Definition liveInfo : videoInfo :=
  {| formats := [aac140]; isLiveContent := true; lengthSeconds := "0" |}.

Definition world_live : World :=
  {| hasha := fun u => u;
     getPathFor := fun _ _ => None;
     getInfo := fun _ _ => Return liveInfo;
     findUnique := fun _ _ => Some 30;
     arrayShuffle := fun _ l => rev l;
     arraySort := fun cmp l => Js.sort cmp l |}.

(** Candidates of a video: opus in webm at 48000 Hz, and three in aac, the
    middle one without a bitrate tag; [plain18] has no average bitrate. *)
Definition opus251 : Format.t :=
  Format.mk "https://cdn.example.org/251" 251 "opus" "webm" (Some "48000")
    false (Some 160) (Some 135000) (Some 140000).

Definition aac139 : Format.t :=
  Format.mk "https://cdn.example.org/139" 139 "mp4a.40.5" "mp4" (Some "22050")
    false (Some 48) (Some 48000) (Some 49000).

Definition aac141 : Format.t :=
  Format.mk "https://cdn.example.org/141" 141 "mp4a.40.2" "mp4" (Some "44100")
    false (Some 256) (Some 256000) (Some 257000).

Definition plain18 : Format.t :=
  Format.mk "https://cdn.example.org/18" 18 "avc1.42001E, mp4a.40.2" "mp4"
    (Some "44100") false (Some 96) None None.

(** Candidates of a live broadcast; itag 300 is not a preferred one. *)
Definition hls (itag : Z) (url : string) (audioBitrate : Z) : Format.t :=
  Format.mk url itag "avc1.4d401f, mp4a.40.2" "ts" (Some "48000") true
    (Some audioBitrate) None None.

Definition hls93 : Format.t := hls 93 "https://cdn.example.org/hls/93" 128.
Definition hls95 : Format.t := hls 95 "https://cdn.example.org/hls/95" 256.
Definition hls300 : Format.t := hls 300 "https://cdn.example.org/hls/300" 256.

Definition videoOf (candidates : list Format.t) : videoInfo :=
  {| formats := candidates; isLiveContent := false; lengthSeconds := "212" |}.

(** Nothing is cached and the resolver answers [info]. *)
Definition world_info (info : videoInfo) : World :=
  {| hasha := fun u => u;
     getPathFor := fun _ _ => None;
     getInfo := fun _ _ => Return info;
     findUnique := fun _ _ => Some 30;
     arrayShuffle := fun _ l => rev l;
     arraySort := fun cmp l => Js.sort cmp l |}.

(** ** Notions used in the statements *)

(** [g] returns whatever [f] returns, possibly with more fuel. *)
Definition refines {A : Type} (f g : MF A) : Prop :=
  forall s r, f s = Some r -> g s = Some r.

(** Queue entries from the cursor on: a bound on the nested calls of [play]. *)
Definition remaining (s : State) : nat :=
  if queuePosition s <? 0 then O
  else Z.to_nat (Js.len (queue s) - queuePosition s).

(** The queue and the cursor are left as they were. *)
Definition same_cursor (s s' : State) : Prop :=
  queue s' = queue s /\ queuePosition s' = queuePosition s.

(** The queue is left as it was and the cursor has not moved back, nor past
    the end of the queue. *)
Definition advances (s s' : State) : Prop :=
  queue s' = queue s
  /\ queuePosition s <= queuePosition s'
  /\ (queuePosition s <= Js.len (queue s) -> queuePosition s' <= Js.len (queue s)).

(** What [forward(skip)] leaves: either the overflow check failed and nothing
    changed, or the cursor went [skip] ahead, further if tracks were skipped,
    and one back if the call then failed. *)
Definition forwarded (skip : Z) (s : State) (r : Completion unit) (s' : State) : Prop :=
  queue s' = queue s
  /\ ((canGoForward skip s = false /\ r = Throw NoMoreTracks /\ s' = s)
      \/ (canGoForward skip s = true
          /\ queuePosition s' <= Js.len (queue s)
          /\ match r with
             | Return _ => queuePosition s + skip <= queuePosition s'
             | Throw _ => queuePosition s + skip - 1 <= queuePosition s'
             end)).

(** The comparator that ranks by descending [key]. *)
Definition byKey (key : Format.t -> Z) (a b : Format.t) : Z := key b - key a.

(** ** Further notions and example data *)

(** The audio player exists only under a voice connection, and the status is
    Playing only with an audio player. *)
Definition consistent (s : State) : Prop :=
  (audioPlayer s <> None -> voiceConnection s <> None)
  /\ (status s = PLAYING -> audioPlayer s <> None).

(** A short video that is not live, with one candidate. *)
Definition shortInfo : videoInfo :=
  {| formats := [aac140]; isLiveContent := false; lengthSeconds := "212" |}.

Definition world_short : World :=
  {| hasha := fun u => u;
     getPathFor := fun _ _ => None;
     getInfo := fun _ _ => Return shortInfo;
     findUnique := fun _ _ => Some 30;
     arrayShuffle := fun _ l => rev l;
     arraySort := fun cmp l => Js.sort cmp l |}.

(** A new engine whose queue ran out twice, with no [play()] in between. *)
Definition twoTimers : State :=
  runOps world_cached [OpAdd songA false; OpForward 1; OpAdd songB false; OpForward 1]
    (fresh "guild-1").

(** From [s] to [s'] at most [b] external calls were made. *)
Definition calls_within (b : nat) (s s' : State) : Prop :=
  (clock s <= clock s' <= clock s + b)%nat.

(** The stream of [song] can be fetched, whenever it is asked for. *)
Definition fetchable (w : World) (song : Song.t) : Prop :=
  forall s, exists stream, fst (playFetch w song s) = Return stream.

(** * Properties *)

(** ** Fuel: [play] and [forward] always return *)

Section Fuel.
Variable w : World.

Lemma play_fetch_refines (f g : MF unit) (song : Song.t) :
  refines f g -> refines (play_fetch w f song) (play_fetch w g song).
Proof.
  intros Hfg s r. unfold play_fetch.
  destruct (getStream w song _ _ s) as [[stream|error] s1]; auto.
  destruct (f s1) as [[[u|e] s2]|] eqn:E; try discriminate;
    rewrite (Hfg _ _ E); auto.
Qed.

Lemma play_with_refines (f g : MF unit) :
  refines f g -> refines (play_with w f) (play_with w g).
Proof.
  intros Hfg s r. unfold play_with.
  destruct (voiceConnection s); auto.
  destruct (getCurrent s) as [song|]; auto.
  destruct (resumes song _); [destruct (audioPlayer _); auto;
    destruct (negb (Song.isLive song)); auto|];
    apply play_fetch_refines; assumption.
Qed.

Lemma forward_with_refines (f g : MF unit) (skip : Z) :
  refines f g -> refines (forward_with w f skip) (forward_with w g skip).
Proof.
  intros Hfg s r. unfold forward_with.
  destruct (manualForward skip s) as [[u|e] s1]; auto.
  destruct (getCurrent s1); auto.
  destruct (negb (STATUS_eqb (status s1) PAUSED)); auto.
  destruct (f s1) as [r2|] eqn:E; try discriminate.
  rewrite (Hfg _ _ E); auto.
Qed.

Lemma play_n_S (n : nat) : refines (play_n w n) (play_n w (S n)).
Proof.
  induction n as [|n IH].
  - intros s r H. discriminate.
  - change (play_n w (S (S n))) with (play_with w (forward_with w (play_n w (S n)) 1)).
    change (play_n w (S n)) with (play_with w (forward_with w (play_n w n) 1)) at 1.
    apply play_with_refines, forward_with_refines, IH.
Qed.

Lemma play_n_le (n m : nat) : (n <= m)%nat -> refines (play_n w n) (play_n w m).
Proof.
  induction 1 as [|m Hle IH]; intros s r Hs; auto.
  apply play_n_S, IH, Hs.
Qed.

Lemma index_Some_range {A : Type} (l : list A) (i : Z) (x : A) :
  Js.index l i = Some x -> 0 <= i < Js.len l.
Proof.
  unfold Js.index, Js.len. destruct (Z.ltb_spec i 0) as [Hi|Hi]; [discriminate|].
  intros Hx. assert (nth_error l (Z.to_nat i) <> None) as Hn by congruence.
  apply nth_error_Some in Hn. lia.
Qed.

Lemma getCurrent_range (s : State) (song : Song.t) :
  getCurrent s = Some song -> 0 <= queuePosition s < Js.len (queue s).
Proof.
  unfold getCurrent.
  destruct (Js.index (queue s) (queuePosition s)) as [[x|]|] eqn:E; try discriminate.
  intros _. eapply index_Some_range, E.
Qed.

Lemma remaining_le_length (s : State) : (remaining s <= List.length (queue s))%nat.
Proof.
  unfold remaining, Js.len. destruct (Z.ltb_spec (queuePosition s) 0); lia.
Qed.

End Fuel.

(** ** The cursor under [play], [forward] and [back] *)

Section Cursor.
Variable w : World.

Lemma same_cursor_refl (s : State) : same_cursor s s.
Proof. split; reflexivity. Qed.

Lemma same_cursor_trans (a b c : State) :
  same_cursor a b -> same_cursor b c -> same_cursor a c.
Proof. intros [? ?] [? ?]. split; congruence. Qed.

Lemma same_cursor_advances (s s' : State) : same_cursor s s' -> advances s s'.
Proof. intros [Hq Hp]. unfold advances. rewrite Hq, Hp. repeat split; lia. Qed.

Lemma getStream_clock (song : Song.t) (seek to : option Z) (s : State) :
  exists k, snd (getStream w song seek to s) = set_clock k s.
Proof.
  unfold getStream. destruct s as [g vc st lp q qp ap np pi lu ps dt ts nt ck].
  destruct (Song.source song); cbn.
  - destruct (getPathFor w ck _); cbn; [eexists; reflexivity|].
    destruct (getInfo w (S ck) _) as [info|e]; cbn; [|eexists; reflexivity].
    destruct (selectFormat _); cbn; eexists; reflexivity.
  - exists ck. reflexivity.
Qed.

Lemma getStream_same_cursor (song : Song.t) (seek to : option Z) (s : State) :
  same_cursor s (snd (getStream w song seek to s)).
Proof.
  destruct (getStream_clock song seek to s) as [k ->]. split; reflexivity.
Qed.

Lemma cancelDisconnectTimer_same_cursor (s : State) :
  same_cursor s (cancelDisconnectTimer s).
Proof. unfold cancelDisconnectTimer. destruct (disconnectTimer s); split; reflexivity. Qed.

Lemma attachListeners_same_cursor (s : State) : same_cursor s (attachListeners s).
Proof.
  unfold attachListeners. destruct (voiceConnection s); [|apply same_cursor_refl].
  cbn. destruct (audioPlayer s); split; reflexivity.
Qed.

Lemma seek_same_cursor (p : Z) (s : State) : same_cursor s (snd (seek w p s)).
Proof.
  unfold seek. cbn.
  destruct (voiceConnection s); [|split; reflexivity].
  destruct (getCurrent _) as [song|]; [|split; reflexivity].
  destruct (p >? Song.length song); [split; reflexivity|].
  match goal with |- context [getStream w song ?a ?b ?t] =>
    pose proof (getStream_same_cursor song a b t) as Hg;
    destruct (getStream w song a b t) as [[stream|e] s1] end; cbn in *.
  - destruct Hg as [Hq Hp]. unfold attachListeners. cbn.
    destruct (voiceConnection s1); cbn; split; assumption.
  - exact Hg.
Qed.

Lemma goIdle_same_cursor (s : State) : same_cursor s (snd (goIdle w s)).
Proof.
  unfold goIdle, stopAudioPlayer.
  destruct (audioPlayer s); cbn; destruct (findUnique w _ _) as [n|]; cbn;
    try destruct (n =? 0); split; reflexivity.
Qed.

Lemma getCurrent_same_cursor (s s' : State) :
  same_cursor s s' -> getCurrent s' = getCurrent s.
Proof. intros [Hq Hp]. unfold getCurrent. rewrite Hq, Hp. reflexivity. Qed.

Lemma forward_catch_forwarded (skip : Z) (s s1 : State) (r2 : Completion unit) (s2 : State) :
  canGoForward skip s = true ->
  queue s1 = queue s -> queuePosition s1 = queuePosition s + skip ->
  advances s1 s2 ->
  forwarded skip s (fst (forward_catch (r2, s2))) (snd (forward_catch (r2, s2))).
Proof.
  intros Hcan Hq1 Hp1 (Hq & Hlo & Hhi). unfold forwarded. rewrite Hq1, Hp1 in *.
  pose proof Hcan as Hlt. unfold canGoForward in Hlt. apply Z.ltb_lt in Hlt.
  destruct r2 as [u|e]; cbn; (split; [assumption|right]); repeat split; auto; lia.
Qed.

Lemma forward_with_forwarded (play_ : MF unit) (skip : Z) :
  (forall s r s', play_ s = Some (r, s') -> advances s s') ->
  forall s r s', forward_with w play_ skip s = Some (r, s') -> forwarded skip s r s'.
Proof.
  intros Hplay s r s'. unfold forward_with, manualForward.
  destruct (canGoForward skip s) eqn:Hcan.
  2:{ intros H. injection H as <- <-. split; auto. }
  set (s1 := stopTrackingPosition _).
  assert (forall r2 s2, advances s1 s2 ->
            Some (forward_catch (r2, s2)) = Some (r, s') -> forwarded skip s r s') as Hpost.
  { intros r2 s2 Ha H.
    pose proof (@forward_catch_forwarded skip s s1 r2 s2 Hcan eq_refl eq_refl Ha) as Hf.
    assert (forward_catch (r2, s2) = (r, s')) as E by congruence.
    rewrite E in Hf. exact Hf. }
  assert (forall s2, same_cursor s1 s2 -> advances s1 s2) as Hsame
    by (intros; apply same_cursor_advances; assumption).
  assert (option_map forward_catch (Some (goIdle w s1)) = Some (r, s') ->
          forwarded skip s r s') as Hidle.
  { pose proof (goIdle_same_cursor s1) as Hg.
    destruct (goIdle w s1) as [r2 s2]. intros H. apply (Hpost r2 s2); [apply Hsame, Hg|exact H]. }
  destruct (getCurrent s1); [|exact Hidle].
  destruct (negb (STATUS_eqb (status s1) PAUSED)); [|exact Hidle].
  destruct (play_ s1) as [[r2 s2]|] eqn:E; [|discriminate].
  intros H. apply (Hpost r2 s2); [eapply Hplay, E|exact H].
Qed.

Lemma forwarded_1_advances (s : State) (r : Completion unit) (s' : State) :
  forwarded 1 s r s' -> advances s s'.
Proof.
  intros (Hq & [(_ & _ & ->)|(_ & Hhi & Hlo)]).
  - apply same_cursor_advances, same_cursor_refl.
  - repeat split; auto; destruct r; lia.
Qed.

Lemma advances_trans_same (a b c : State) :
  same_cursor a b -> advances b c -> advances a c.
Proof.
  intros [Hq Hp] (Hq' & Hlo & Hhi). unfold advances.
  rewrite Hq, Hp in *. repeat split; auto.
Qed.

Lemma play_fetch_advances (forward1 : MF unit) (song : Song.t) :
  (forall s r s', forward1 s = Some (r, s') -> forwarded 1 s r s') ->
  forall s r s', play_fetch w forward1 song s = Some (r, s') -> advances s s'.
Proof.
  intros Hfwd s r s'. unfold play_fetch.
  match goal with |- context [getStream w song ?a ?b s] =>
    pose proof (getStream_same_cursor song a b s) as Hg;
    destruct (getStream w song a b s) as [[stream|error] s1] end; cbn in Hg.
  - pose proof (attachListeners_same_cursor (set_audioPlayer (Some (ap_play stream)) s1))
      as [Hq Hp]. cbn in Hq, Hp.
    destruct (String.eqb _ _); intros H; injection H as <- <-;
      apply same_cursor_advances; destruct Hg as [Hq1 Hp1]; split; cbn; congruence.
  - destruct (forward1 s1) as [[r2 s2]|] eqn:E; [|discriminate].
    apply Hfwd, forwarded_1_advances in E.
    pose proof (advances_trans_same Hg E) as Ha.
    destruct r2 as [u|e]; [destruct (_ && _)|]; intros H; injection H as <- <-; exact Ha.
Qed.

Lemma play_with_advances (forward1 : MF unit) :
  (forall s r s', forward1 s = Some (r, s') -> forwarded 1 s r s') ->
  forall s r s', play_with w forward1 s = Some (r, s') -> advances s s'.
Proof.
  intros Hfwd s r s'. unfold play_with.
  destruct (voiceConnection s).
  2:{ intros H; injection H as <- <-. apply same_cursor_advances, same_cursor_refl. }
  destruct (getCurrent s) as [song|].
  2:{ intros H; injection H as <- <-. apply same_cursor_advances, same_cursor_refl. }
  pose proof (cancelDisconnectTimer_same_cursor s) as Hc.
  set (s0 := cancelDisconnectTimer s) in *.
  assert (forall r s', play_fetch w forward1 song s0 = Some (r, s') -> advances s s') as Hf.
  { intros r0 s0' H. eapply advances_trans_same; [exact Hc|].
    eapply play_fetch_advances; eassumption. }
  destruct (resumes song s0); [|apply Hf].
  destruct (audioPlayer s0).
  - intros H; injection H as <- <-. apply same_cursor_advances.
    destruct Hc as [Hq Hp]. split; cbn; assumption.
  - destruct (negb (Song.isLive song)); [|apply Hf].
    pose proof (seek_same_cursor (getPosition s0) s0) as Hs.
    destruct (seek w (getPosition s0) s0) as [r0 s0']. intros H; injection H as <- <-.
    apply same_cursor_advances. eapply same_cursor_trans; eassumption.
Qed.

Lemma play_n_advances (n : nat) (s : State) (r : Completion unit) (s' : State) :
  play_n w n s = Some (r, s') -> advances s s'.
Proof.
  revert s r s'. induction n as [|n IH]; intros s r s'; [discriminate|].
  cbn [play_n]. apply play_with_advances.
  apply forward_with_forwarded. exact IH.
Qed.

Lemma forward_n_forwarded (n : nat) (skip : Z) (s : State) (r : Completion unit) (s' : State) :
  forward_n w n skip s = Some (r, s') -> forwarded skip s r s'.
Proof. apply forward_with_forwarded. intros ? ? ?. apply play_n_advances. Qed.

End Cursor.

Section Totality.
Variable w : World.

Lemma forward_with_some (play_ : MF unit) (skip : Z) (s : State) :
  (forall s1, queue s1 = queue s -> queuePosition s1 = queuePosition s + skip ->
              getCurrent s1 <> None -> play_ s1 <> None) ->
  forward_with w play_ skip s <> None.
Proof.
  intros Hplay. unfold forward_with, manualForward.
  destruct (canGoForward skip s); [|discriminate].
  set (s1 := stopTrackingPosition _).
  destruct (getCurrent s1) eqn:Hc; [|discriminate].
  destruct (negb (STATUS_eqb (status s1) PAUSED)); [|discriminate].
  specialize (Hplay s1 eq_refl eq_refl). rewrite Hc in Hplay.
  destruct (play_ s1); [discriminate|]. exfalso. apply Hplay; congruence.
Qed.

Lemma play_with_some (forward1 : MF unit) (s : State) :
  (forall s1, getCurrent s <> None -> same_cursor s s1 -> forward1 s1 <> None) ->
  play_with w forward1 s <> None.
Proof.
  intros Hfwd. unfold play_with.
  destruct (voiceConnection s); [|discriminate].
  destruct (getCurrent s) as [song|]; [|discriminate].
  pose proof (cancelDisconnectTimer_same_cursor s) as Hc.
  set (s0 := cancelDisconnectTimer s) in *.
  assert (play_fetch w forward1 song s0 <> None) as Hf.
  { unfold play_fetch.
    match goal with |- context [getStream w song ?a ?b s0] =>
      pose proof (getStream_same_cursor w song a b s0) as Hg;
      destruct (getStream w song a b s0) as [[stream|error] s1] end; cbn in Hg.
    - destruct (String.eqb _ _); discriminate.
    - assert (forward1 s1 <> None) as Hs
        by (apply Hfwd; [discriminate|eapply same_cursor_trans; eassumption]).
      destruct (forward1 s1) as [[[u|e] s2]|]; [destruct (_ && _)| |]; congruence. }
  destruct (resumes song s0); [|exact Hf].
  destruct (audioPlayer s0); [discriminate|].
  destruct (negb (Song.isLive song)); [discriminate|exact Hf].
Qed.

Lemma remaining_next (s s1 : State) :
  getCurrent s <> None ->
  queue s1 = queue s -> queuePosition s1 = queuePosition s + 1 ->
  S (remaining s1) = remaining s.
Proof.
  intros Hc Hq Hp. destruct (getCurrent s) as [song|] eqn:E; [|congruence].
  apply getCurrent_range in E. unfold remaining. rewrite Hq, Hp.
  destruct (Z.ltb_spec (queuePosition s + 1) 0); [lia|].
  destruct (Z.ltb_spec (queuePosition s) 0); lia.
Qed.

Lemma play_n_enough (n : nat) (s : State) :
  (remaining s <= n)%nat -> play_n w (S n) s <> None.
Proof.
  revert s. induction n as [|n IH]; intros s Hrem; cbn [play_n];
    apply play_with_some; intros s1 Hc [Hq Hp]; apply forward_with_some;
    intros s2 Hq2 Hp2 Hc2.
  - assert (S (remaining s2) = remaining s)
      by (apply remaining_next; [assumption|congruence|lia]). lia.
  - assert (S (remaining s2) = remaining s)
      by (apply remaining_next; [assumption|congruence|lia]).
    apply IH. lia.
Qed.

(** With the fuel of [fuel], [play] returns. *)
Lemma play_n_fuel (s s0 : State) :
  queue s0 = queue s -> exists r, play_n w (fuel s0) s = Some r.
Proof.
  intros Hq. unfold fuel.
  pose proof (@play_n_enough (List.length (queue s0)) s) as H.
  destruct (play_n w (S (List.length (queue s0))) s) as [r|]; [eauto|].
  exfalso. apply H; [|reflexivity]. rewrite Hq. apply remaining_le_length.
Qed.

(** The total functions agree with every run that had fuel enough. *)
Lemma play_run (n : nat) (s : State) (r : Completion unit * State) :
  play_n w n s = Some r -> play w s = r.
Proof.
  intros H. unfold play, run.
  destruct (play_n_fuel s s eq_refl) as [r' E]. rewrite E.
  destruct (Nat.le_ge_cases n (fuel s)) as [Hle|Hle].
  - apply (@play_n_le w _ _ Hle) in H. congruence.
  - apply (@play_n_le w _ _ Hle) in E. congruence.
Qed.

Lemma play_returns (s : State) : play_n w (fuel s) s = Some (play w s).
Proof.
  destruct (play_n_fuel s s eq_refl) as [r E]. rewrite E. f_equal.
  symmetry. eapply play_run, E.
Qed.

Lemma forward_returns (skip : Z) (s : State) :
  forward_n w (fuel s) skip s = Some (forward w skip s).
Proof.
  unfold forward, run.
  destruct (forward_n w (fuel s) skip s) eqn:E; [reflexivity|].
  exfalso. revert E. apply forward_with_some. intros s1 Hq _ _.
  destruct (play_n_fuel s1 s (eq_sym Hq)) as [r ->]. discriminate.
Qed.

Lemma back_returns (s : State) : back_n w (fuel s) s = Some (back w s).
Proof.
  unfold back, run. destruct (back_n w (fuel s) s) eqn:E; [reflexivity|].
  exfalso. revert E. unfold back_n. destruct (canGoBack s); [|discriminate].
  destruct (negb _); [|discriminate].
  match goal with |- play_n w _ ?t = None -> _ =>
    destruct (play_n_fuel t s eq_refl) as [r ->] end. discriminate.
Qed.

Lemma onAudioPlayerIdle_returns (s : State) :
  onAudioPlayerIdle_n w (fuel s) s = Some (onAudioPlayerIdle w s).
Proof.
  unfold onAudioPlayerIdle, run.
  destruct (onAudioPlayerIdle_n w (fuel s) s) eqn:E; [reflexivity|].
  exfalso. revert E. unfold onAudioPlayerIdle_n.
  destruct (_ && _); [discriminate|]. destruct (STATUS_eqb _ _); [|discriminate].
  rewrite forward_returns. discriminate.
Qed.

End Totality.

(** ** Seeking *)

(** On a connected engine with a current track, [seek(p)] with
    [p > currentTrack.length] raises SeekOutOfRange; the only field it has
    written by then is the status. *)
Theorem seek_out_of_range (w : World) (s : State) (song : Song.t) (p : Z) :
  voiceConnection s <> None ->
  getCurrent s = Some song ->
  p > Song.length song ->
  seek w p s = (Throw SeekOutOfRange, set_status PAUSED s)
  /\ status (snd (seek w p s)) = PAUSED
  /\ positionInSeconds (snd (seek w p s)) = positionInSeconds s
  /\ audioPlayer (snd (seek w p s)) = audioPlayer s
  /\ playPositionInterval (snd (seek w p s)) = playPositionInterval s.
Proof.
  intros Hvc Hcur Hp.
  assert (seek w p s = (Throw SeekOutOfRange, set_status PAUSED s)) as E.
  { unfold seek. cbn [voiceConnection set_status].
    destruct (voiceConnection s); [|congruence].
    change (getCurrent (set_status PAUSED s)) with (getCurrent s). rewrite Hcur.
    destruct (Z.gtb_spec p (Song.length song)); [reflexivity|lia]. }
  rewrite E. repeat split.
Qed.

Lemma seek_out_of_range_witness :
  seek world_cached 181 playingA = (Throw SeekOutOfRange, set_status PAUSED playingA).
Proof.
  apply (@seek_out_of_range world_cached playingA songA 181).
  - discriminate.
  - reflexivity.
  - reflexivity.
Defined.

(** C1, at [seek(181)] on an engine playing a track of 180 seconds: the call
    raises SeekOutOfRange, but the status it leaves is Paused, not Playing as
    before, while the audio player goes on playing and the position goes on
    being counted; [pause()] then raises NotPlaying.  The assignment of the
    status is the first statement of [seek], before its checks. *)
Lemma seek_out_of_range_pauses :
  voiceConnection playingA <> None
  /\ getCurrent playingA = Some songA
  /\ 181 > Song.length songA
  /\ status playingA = PLAYING
  /\ fst (seek world_cached 181 playingA) = Throw SeekOutOfRange
  /\ status (snd (seek world_cached 181 playingA)) = PAUSED
  /\ option_map ap_status (audioPlayer (snd (seek world_cached 181 playingA)))
     = Some ApPlaying
  /\ playPositionInterval (snd (seek world_cached 181 playingA)) = true
  /\ positionInSeconds (positionTick (snd (seek world_cached 181 playingA)))
     = positionInSeconds playingA + 1
  /\ fst (pause (snd (seek world_cached 181 playingA))) = Throw NotPlaying.
Proof.
  split; [discriminate|]. split; [reflexivity|]. split; [reflexivity|].
  vm_compute. repeat split.
Qed.

(** ** Overflow of [forward] and [back] *)

(** C5: [forward(skip)] with [cursor+skip-1 >= len(queue)] raises NoMoreTracks
    and [back()] at cursor 0 raises NoPreviousTrack; both leave the whole
    state, the cursor included, as it was. *)
Theorem forward_back_out_of_range (w : World) (s : State) (skip : Z) :
  (queuePosition s + skip - 1 >= Js.len (queue s) ->
   forward w skip s = (Throw NoMoreTracks, s))
  /\ (queuePosition s = 0 -> back w s = (Throw NoPreviousTrack, s)).
Proof.
  split.
  - intros Hge. unfold forward, run, forward_n, forward_with, manualForward, canGoForward.
    destruct (Z.ltb_spec (queuePosition s + skip - 1) (Js.len (queue s))); [lia|reflexivity].
  - intros H0. unfold back, run, back_n, canGoBack. rewrite H0. reflexivity.
Qed.

Lemma forward_back_out_of_range_witness :
  forward world_cached 4 playingA = (Throw NoMoreTracks, playingA)
  /\ back world_cached playingA = (Throw NoPreviousTrack, playingA).
Proof.
  destruct (forward_back_out_of_range world_cached playingA 4) as [Hf Hb].
  split; [apply Hf; vm_compute; discriminate|apply Hb; reflexivity].
Defined.

(** ** Queue mutators *)

Lemma clamp_nonneg {A : Type} (l : list A) (i : Z) :
  0 <= i -> Js.clamp l i = Z.to_nat (Z.min i (Js.len l)).
Proof. intros Hi. unfold Js.clamp. destruct (Z.ltb_spec i 0); [lia|reflexivity]. Qed.

Lemma clamp_le_length {A : Type} (l : list A) (i : Z) :
  (Js.clamp l i <= List.length l)%nat.
Proof. unfold Js.clamp, Js.len. destruct (Z.ltb_spec i 0); lia. Qed.

Lemma firstn_beyond {A : Type} (l : list A) (n : nat) :
  (List.length l <= n)%nat -> firstn n l = l.
Proof. apply firstn_all2. Qed.

Lemma skipn_beyond {A : Type} (l : list A) (n : nat) :
  (List.length l <= n)%nat -> skipn n l = [].
Proof. apply skipn_all2. Qed.

(** [splice] without inserted items, from a non-negative start: the elements
    at [start .. start+count-1] go, whether or not they all exist. *)
Lemma splice_remove {A : Type} (l : list A) (start count : Z) :
  0 <= start -> 0 <= count ->
  snd (Js.splice l start count []) =
  firstn (Z.to_nat start) l ++ skipn (Z.to_nat start + Z.to_nat count) l.
Proof.
  intros Hs Hc. unfold Js.splice. cbn [snd app].
  rewrite clamp_nonneg by assumption. unfold Js.len.
  destruct (Z.le_gt_cases (Z.of_nat (List.length l)) start) as [Hbig|Hsmall].
  - rewrite Z.min_r by lia. rewrite Nat2Z.id.
    rewrite (firstn_beyond l (n := Z.to_nat start)) by lia.
    rewrite firstn_all. rewrite !skipn_beyond by lia. reflexivity.
  - rewrite Z.min_l by lia. f_equal.
    destruct (Z.le_gt_cases count (Z.of_nat (List.length l) - start)).
    + f_equal. lia.
    + rewrite !skipn_beyond by lia. reflexivity.
Qed.

(** C6 (as the code has it): for [amount >= 1] and [index >= 0],
    [removeFromQueue(index, amount)] removes the tracks at queue indices
    [cursor+index .. cursor+index+amount-1] (index 0 is the current track, index
    1 the first upcoming one), as many of them as exist and exactly [amount]
    when they all do; every other track keeps its place in the order, and the
    cursor and the rest of the state are unchanged. *)
Theorem removeFromQueue_range (s : State) (index amount : Z) :
  0 <= queuePosition s -> 0 <= index -> 1 <= amount ->
  let start := Z.to_nat (queuePosition s + index) in
  let q' := firstn start (queue s) ++ skipn (start + Z.to_nat amount) (queue s) in
  removeFromQueue index amount s = set_queue q' s
  /\ queuePosition (removeFromQueue index amount s) = queuePosition s
  /\ (forall i, (i < start)%nat -> nth_error q' i = nth_error (queue s) i)
  /\ (forall i, (start <= i)%nat ->
        nth_error q' i = nth_error (queue s) (i + Z.to_nat amount))
  /\ (queuePosition s + index + amount <= Js.len (queue s) ->
      Js.len q' = Js.len (queue s) - amount).
Proof.
  intros Hc Hi Ha start q'. unfold removeFromQueue.
  rewrite splice_remove by lia. fold start. fold q'.
  split; [reflexivity|]. split; [reflexivity|].
  assert (List.length (firstn start (queue s)) = Nat.min start (List.length (queue s)))
    as Hlen by apply length_firstn.
  split; [|split].
  - intros i Hlt. unfold q'.
    destruct (Nat.le_gt_cases (List.length (queue s)) i) as [Hout|Hin].
    + rewrite (proj2 (nth_error_None (queue s) i)) by assumption.
      apply nth_error_None. rewrite length_app, length_skipn. lia.
    + rewrite nth_error_app1 by lia. rewrite nth_error_firstn.
      destruct (Nat.ltb_spec i start); [reflexivity|lia].
  - intros i Hge. unfold q'.
    destruct (Nat.le_gt_cases (List.length (queue s)) start) as [Hout|Hin].
    + rewrite (proj2 (nth_error_None (queue s) (i + Z.to_nat amount))) by lia.
      apply nth_error_None. rewrite length_app, length_skipn. lia.
    + rewrite nth_error_app2 by lia. rewrite nth_error_skipn. f_equal. lia.
  - intros Hall. unfold q', Js.len in *. rewrite length_app, length_skipn. lia.
Qed.

Lemma removeFromQueue_range_witness :
  queue (removeFromQueue 1 1 playingA) = [Some songA; Some songC].
Proof.
  destruct (@removeFromQueue_range playingA 1 1) as [E _].
  - vm_compute. discriminate.
  - lia.
  - lia.
  - rewrite E. reflexivity.
Defined.

(** C6 as stated fails: with offset 0 the removal starts at the cursor itself,
    not at [cursor+1]. *)
Lemma removeFromQueue_starts_at_cursor :
  queuePosition playingA = 0
  /\ queue playingA = [Some songA; Some songB; Some songC]
  /\ queue (removeFromQueue 0 1 playingA) = [Some songB; Some songC]
  /\ queue (removeFromQueue 0 1 playingA)
     <> firstn (Z.to_nat (queuePosition playingA + 1 + 0)) (queue playingA)
        ++ skipn (Z.to_nat (queuePosition playingA + 1 + 0) + 1) (queue playingA).
Proof. repeat split; try reflexivity. vm_compute. discriminate. Qed.

Lemma slice_prefix {A : Type} (l : list A) (stop : Z) :
  Js.slice l 0 stop = firstn (Js.clamp l stop) l.
Proof.
  unfold Js.slice. rewrite (clamp_nonneg l (i := 0)) by lia.
  unfold Js.len. rewrite Z.min_l by lia. cbn. f_equal. lia.
Qed.

(** C7 (as the code has it): [add(t, {immediate: true})] with [t] outside any
    playlist inserts [t] right after the current track, at index [cursor+1],
    and when the cursor stands at the end of the queue (no current track) at
    the tail, index [cursor]; the other tracks keep their relative order.
    [add(t)] without [immediate], or with a playlist track, appends at the
    tail.  The cursor is unchanged. *)
Theorem add_position (s : State) (t : Song.t) (immediate : bool) :
  0 <= queuePosition s <= Js.len (queue s) ->
  let at_ := Z.to_nat (Z.min (queuePosition s + 1) (Js.len (queue s))) in
  (Song.playlist t = None -> immediate = true ->
     queue (add t immediate s) = firstn at_ (queue s) ++ [Some t] ++ skipn at_ (queue s)
     /\ nth_error (queue (add t immediate s)) at_ = Some (Some t)
     /\ (queuePosition s < Js.len (queue s) -> at_ = Z.to_nat (queuePosition s + 1)))
  /\ (Song.playlist t <> None \/ immediate = false ->
      queue (add t immediate s) = queue s ++ [Some t])
  /\ queuePosition (add t immediate s) = queuePosition s.
Proof.
  intros Hinv at_. split; [|split].
  - intros Hpl ->. unfold add. rewrite Hpl. cbn [queue set_queue].
    rewrite slice_prefix. unfold Js.slice_from.
    rewrite clamp_nonneg by lia. fold at_. split; [reflexivity|]. split.
    + rewrite nth_error_app2; rewrite length_firstn; unfold at_, Js.len in *; [|lia].
      replace (_ - _)%nat with O by lia. reflexivity.
    + intros Hlt. unfold at_. f_equal. lia.
  - intros [Hpl| ->]; unfold add.
    + destruct (Song.playlist t); [reflexivity|congruence].
    + destruct (Song.playlist t); reflexivity.
  - unfold add. destruct (Song.playlist t), immediate; reflexivity.
Qed.

Lemma add_position_witness :
  queue (add songC true (add songB false (add songA false (fresh "guild-1"))))
  = [Some songA; Some songC; Some songB].
Proof.
  destruct (@add_position (add songB false (add songA false (fresh "guild-1"))) songC true)
    as [Himm _].
  - vm_compute. split; discriminate.
  - destruct Himm as [E _]; [reflexivity|reflexivity|]. rewrite E. reflexivity.
Defined.

(** C7 as stated fails when the cursor stands at the end of the queue: the
    track lands at index [cursor], and index [cursor+1] stays empty. *)
Lemma add_immediate_at_end :
  let s := fresh "guild-1" in
  Song.playlist songA = None
  /\ queuePosition s = 0
  /\ queue (add songA true s) = [Some songA]
  /\ nth_error (queue (add songA true s)) (Z.to_nat (queuePosition s + 1)) = None
  /\ nth_error (queue (add songA true s)) (Z.to_nat (queuePosition s)) = Some (Some songA).
Proof. repeat split. Qed.

(** ** Failures of [forward] and [back] *)

Lemma forward_throw_cursor (w : World) (s : State) (e : exn) (s' : State) :
  forward w 1 s = (Throw e, s') ->
  queue s' = queue s /\ queuePosition s <= queuePosition s'.
Proof.
  intros H. pose proof (forward_returns w 1 s) as E. rewrite H in E.
  apply forward_n_forwarded in E. destruct E as (Hq & [(_ & _ & ->)|(_ & _ & Hlo)]).
  - split; [reflexivity|lia].
  - split; [assumption|lia].
Qed.

Lemma back_throw_cursor (w : World) (s : State) (e : exn) (s' : State) :
  back w s = (Throw e, s') ->
  queue s' = queue s /\ queuePosition s - 1 <= queuePosition s'.
Proof.
  intros H. pose proof (back_returns w s) as E. rewrite H in E.
  unfold back_n in E. destruct (canGoBack s).
  - destruct (negb _); [|discriminate].
    apply play_n_advances in E. destruct E as (Hq & Hlo & _). cbn in Hq, Hlo.
    split; assumption.
  - injection E as _ <-. split; [reflexivity|lia].
Qed.

(** Where a failing [forward] or [back] leaves the cursor.  A [forward(skip)]
    that fails its overflow check and a [back()] at cursor 0 change nothing.
    A [forward(1)] that fails because the guild settings are missing, or
    because the engine is not connected, leaves the cursor at its prior value.
    Every failing [forward(1)] leaves the queue as it was and the cursor at or
    after its prior value, and a failing [back()] leaves it at or after the
    previous index. *)
Theorem forward_back_failure_cursor (w : World) (s : State) :
  (forall skip, canGoForward skip s = false -> forward w skip s = (Throw NoMoreTracks, s))
  /\ (canGoBack s = false -> back w s = (Throw NoPreviousTrack, s))
  /\ (canGoForward 1 s = true ->
      getCurrent (advanced 1 s) = None \/ status s = PAUSED ->
      findUnique w (clock s) (guildId s) = None ->
      fst (forward w 1 s) = Throw SettingsNotFound
      /\ queuePosition (snd (forward w 1 s)) = queuePosition s)
  /\ (canGoForward 1 s = true ->
      getCurrent (advanced 1 s) <> None -> status s <> PAUSED ->
      voiceConnection s = None ->
      fst (forward w 1 s) = Throw NotConnected
      /\ queuePosition (snd (forward w 1 s)) = queuePosition s)
  /\ (forall e s', forward w 1 s = (Throw e, s') ->
        queue s' = queue s /\ queuePosition s <= queuePosition s')
  /\ (forall e s', back w s = (Throw e, s') ->
        queue s' = queue s /\ queuePosition s - 1 <= queuePosition s').
Proof.
  split; [|split; [|split; [|split; [|split]]]].
  - intros skip Hcan. unfold forward, run, forward_n, forward_with, manualForward.
    rewrite Hcan. reflexivity.
  - intros Hcan. unfold back, run, back_n. rewrite Hcan. reflexivity.
  - intros Hcan Hidle Hset.
    assert (forward w 1 s =
            forward_catch (goIdle w (advanced 1 s))) as E.
    { unfold forward, run, forward_n, forward_with, advanced. unfold manualForward at 1.
      rewrite Hcan. unfold advanced, manualForward in Hidle. rewrite Hcan in Hidle.
      cbn [snd] in *.
      destruct Hidle as [Hnone|Hpaused].
      - rewrite Hnone. unfold manualForward. rewrite Hcan. reflexivity.
      - destruct (getCurrent _);
          [change (status (stopTrackingPosition _)) with (status s); rewrite Hpaused|];
          unfold manualForward; rewrite Hcan; reflexivity. }
    rewrite E. unfold advanced, manualForward. rewrite Hcan. cbn [snd].
    unfold goIdle, stopAudioPlayer. cbn [audioPlayer stopTrackingPosition
      set_playPositionInterval set_positionInSeconds set_queuePosition].
    destruct (audioPlayer s); cbn; rewrite Hset; cbn; split; (reflexivity || lia).
  - intros Hcan Hcur Hst Hvc.
    unfold forward, run, forward_n, forward_with. unfold fuel. cbn [play_n].
    unfold advanced in Hcur. unfold manualForward in *. rewrite Hcan in *. cbn [snd] in Hcur.
    destruct (getCurrent _); [|congruence].
    change (status (stopTrackingPosition _)) with (status s).
    destruct (status s); try congruence; cbn -[play_with];
      unfold play_with; cbn; rewrite Hvc; cbn; split; (reflexivity || lia).
  - apply forward_throw_cursor.
  - apply back_throw_cursor.
Qed.

Lemma forward_back_failure_cursor_witness :
  fst (forward (world_gone None) 1 pausedA) = Throw SettingsNotFound
  /\ queuePosition (snd (forward (world_gone None) 1 pausedA)) = queuePosition pausedA.
Proof.
  destruct (forward_back_failure_cursor (world_gone None) pausedA) as (_ & _ & Hidle & _).
  apply Hidle.
  - reflexivity.
  - right. reflexivity.
  - reflexivity.
Defined.

(** C4, at four failing calls.  [back()] on a disconnected engine at cursor 2
    raises NotConnected and leaves the cursor at 1: [back] has no handler to
    undo its decrement, as [forward] has.  [forward(3)] at cursor 0 that finds
    the settings missing leaves the cursor at 2: the handler of [forward]
    takes one step back whatever the skip.  [forward(1)] at cursor 0 whose
    next tracks cannot be fetched leaves the cursor at 1; and when only the
    next track cannot be fetched, [play()] has moved on and started the track
    at index 2 by the time the error is raised again, and the handler's
    decrement leaves the cursor at 1, on the track that failed, while the one
    at index 2 plays. *)
Lemma forward_back_cursor_not_restored :
  (queuePosition idleDisconnected = 2
   /\ fst (back world_cached idleDisconnected) = Throw NotConnected
   /\ queuePosition (snd (back world_cached idleDisconnected)) = 1)
  /\ (queuePosition playingA = 0
      /\ fst (forward (world_gone None) 3 playingA) = Throw SettingsNotFound
      /\ queuePosition (snd (forward (world_gone None) 3 playingA)) = 2)
  /\ (fst (forward (world_unavailable (Some 30)) 1 playingA) = Throw unavailable
      /\ queuePosition (snd (forward (world_unavailable (Some 30)) 1 playingA)) = 1)
  /\ (fst (forward world_b_unavailable 1 playingA) = Throw unavailable
      /\ queuePosition (snd (forward world_b_unavailable 1 playingA)) = 1
      /\ getCurrent (snd (forward world_b_unavailable 1 playingA)) = Some songB
      /\ nowPlaying (snd (forward world_b_unavailable 1 playingA)) = Some songC
      /\ status (snd (forward world_b_unavailable 1 playingA)) = PLAYING).
Proof. vm_compute. repeat split. Qed.

(** ** Stream failures in [play] *)

Lemma play_unfold_fetch (w : World) (s : State) (song : Song.t) (n : nat) :
  voiceConnection s <> None ->
  getCurrent s = Some song ->
  reachesFetch song s = true ->
  play_n w (S n) s = play_fetch w (forward_n w n 1) song (cancelDisconnectTimer s).
Proof.
  intros Hvc Hcur Hreach. cbn [play_n]. unfold play_with.
  destruct (voiceConnection s); [|congruence]. rewrite Hcur.
  assert (resumes song (cancelDisconnectTimer s) = resumes song s
          /\ audioPlayer (cancelDisconnectTimer s) = audioPlayer s) as [Hr Ha]
    by (unfold cancelDisconnectTimer; destruct (disconnectTimer s); split; reflexivity).
  rewrite Hr, Ha. unfold reachesFetch in Hreach.
  destruct (resumes song s); [|reflexivity].
  destruct (audioPlayer s); [discriminate|]. rewrite Hreach. reflexivity.
Qed.





(** ** Going idle *)

Lemma forward_goes_idle (w : World) (skip : Z) (s : State) :
  canGoForward skip s = true ->
  getCurrent (advanced skip s) = None \/ status s = PAUSED ->
  forward w skip s = forward_catch (goIdle w (advanced skip s)).
Proof.
  intros Hcan Hidle.
  unfold forward, run, forward_n, forward_with, advanced. unfold manualForward at 1.
  rewrite Hcan. unfold advanced, manualForward in Hidle. rewrite Hcan in Hidle.
  cbn [snd] in Hidle. unfold manualForward. rewrite Hcan. cbn [snd].
  destruct Hidle as [Hnone|Hpaused].
  - rewrite Hnone. reflexivity.
  - destruct (getCurrent (stopTrackingPosition _)); [|reflexivity].
    change (status (stopTrackingPosition _)) with (status s). rewrite Hpaused. reflexivity.
Qed.

Lemma disconnect_cases (s : State) :
  disconnect s = s
  \/ (voiceConnection (disconnect s) = None
      /\ audioPlayer (disconnect s) = None
      /\ status (disconnect s) = match status s with PLAYING => PAUSED | st => st end).
Proof.
  destruct s as [g vc st lp q qp ap np pi lu ps dt ts nt ck].
  unfold disconnect, pause, stopAudioPlayer. cbn.
  destruct vc; [right|left; reflexivity].
  destruct st, ap; cbn; repeat split.
Qed.



(** ** The status of a fresh engine *)

Lemma disconnect_status (s : State) :
  status (disconnect s) = match status s with PLAYING => PAUSED | st => st end
  \/ status (disconnect s) = status s.
Proof.
  destruct (disconnect_cases s) as [->|(_ & _ & H)]; [right; reflexivity|left; exact H].
Qed.

Lemma seek_status (w : World) (p : Z) (s : State) :
  status (snd (seek w p s)) <> IDLE.
Proof.
  unfold seek. cbn [voiceConnection set_status].
  destruct (voiceConnection s); [|cbn; discriminate].
  destruct (getCurrent _) as [song|]; [|cbn; discriminate].
  destruct (p >? Song.length song); [cbn; discriminate|].
  match goal with |- context [getStream w song ?a ?b ?t] =>
    destruct (getStream_clock w song a b t) as [k Hk];
    destruct (getStream w song a b t) as [[stream|e] s1] end; cbn in Hk; subst s1; cbn;
    discriminate.
Qed.

Lemma timeoutFires_status (h : nat) (s : State) :
  status (timeoutFires h s) = status s.
Proof.
  unfold timeoutFires, disconnectIfIdle. destruct (existsb _ _); [|reflexivity].
  change (status (clearTimer h s)) with (status s).
  destruct (status s) eqn:Est; cbn [STATUS_eqb]; try exact Est.
  destruct (disconnect_status (clearTimer h s)) as [H|H]; rewrite H;
    change (status (clearTimer h s)) with (status s); rewrite Est; reflexivity.
Qed.

Lemma move_status (from to : Z) (s : State) :
  status (snd (move from to s)) = status s.
Proof.
  unfold move. destruct (_ || _); [reflexivity|].
  destruct (Js.splice (queue s) (queuePosition s + from) 1 []) as [removed q1].
  reflexivity.
Qed.

(** Operations that cannot reach [forward] leave the status as it was, or turn
    Playing into Paused, or (seeking) end Paused or Playing. *)
Lemma exec_status (w : World) (op : Op) (s : State) :
  noForward op ->
  status (snd (exec w op s)) = status s
  \/ (status s = PLAYING /\ status (snd (exec w op s)) = PAUSED)
  \/ (status (snd (exec w op s)) <> IDLE /\ ~ quiet op).
Proof.
  intros Hop. destruct op; cbn [exec done snd]; try contradiction;
    try (left; reflexivity).
  - destruct (disconnect_status s) as [H|H]; [|left; exact H].
    destruct (status s) eqn:E; [right; left; split; [reflexivity|exact H]|left; exact H..].
  - right; right. split; [apply seek_status|cbn; tauto].
  - right; right. split; [apply seek_status|cbn; tauto].
  - unfold pause. destruct (status s) eqn:E; cbn [STATUS_eqb negb snd].
    + right; left. split; [reflexivity|]. destruct (audioPlayer _); reflexivity.
    + left. exact E.
    + left. exact E.
  - left. unfold add. destruct (Song.playlist song), immediate; reflexivity.
  - change (status (stop s)) with (status (disconnect s)).
    destruct (disconnect_status s) as [H|H]; [|left; exact H].
    destruct (status s) eqn:E; [right; left; split; [reflexivity|exact H]|left; exact H..].
  - left. destruct (move from to s) as [[x|e] s1] eqn:E;
      pose proof (move_status from to s) as H; rewrite E in H; exact H.
  - unfold onVoiceConnectionDisconnect.
    destruct (disconnect_status s) as [H|H]; [|left; exact H].
    destruct (status s) eqn:E; [right; left; split; [reflexivity|exact H]|left; exact H..].
  - left. apply timeoutFires_status.
  - left. unfold positionTick. destruct (playPositionInterval s); reflexivity.
Qed.

Lemma back_paused (w : World) (s : State) :
  status s = PAUSED -> status (snd (back w s)) = PAUSED.
Proof.
  intros Hs. unfold back, run, back_n. destruct (canGoBack s); [|exact Hs].
  cbn [status stopTrackingPosition set_playPositionInterval set_positionInSeconds
       set_queuePosition].
  rewrite Hs. exact Hs.
Qed.

Lemma onAudioPlayerIdle_paused (w : World) (s : State) :
  status s = PAUSED -> onAudioPlayerIdle w s = (Return tt, s).
Proof.
  intros Hs. unfold onAudioPlayerIdle, run, onAudioPlayerIdle_n. rewrite Hs.
  cbn [STATUS_eqb]. rewrite andb_false_r. reflexivity.
Qed.

Lemma quiet_step (w : World) (op : Op) (s : State) :
  quiet op -> status s = PAUSED -> status (snd (exec w op s)) = PAUSED.
Proof.
  intros Hop Hs.
  assert (noForward op \/ op = OpBack \/ op = EvAudioPlayerIdle) as [Hnf|[->| ->]]
    by (destruct op; cbn in *; tauto).
  - destruct (@exec_status w op s Hnf) as [H|[[H _]|[_ H]]];
      [congruence|congruence|contradiction].
  - apply back_paused, Hs.
  - cbn [exec]. rewrite onAudioPlayerIdle_paused by exact Hs. exact Hs.
Qed.

Lemma quiet_runs_paused (w : World) (ops : list Op) (s : State) :
  Forall quiet ops -> status s = PAUSED -> status (runOps w ops s) = PAUSED.
Proof.
  intros Hq. revert s. induction Hq as [|op ops Hop _ IH]; intros s Hs; [exact Hs|].
  cbn. apply IH, quiet_step; assumption.
Qed.

(** C10 (as the code has it): a newly constructed engine is Paused, not Idle,
    and stays Paused under every operation and event other than [play()],
    [seek()], [forwardSeek()] and [forward()]: until one of these is called
    [pause()] raises NotPlaying and changes nothing.  No operation other than
    [forward()] (called directly, or by [play()], [back()] or the end-of-stream
    handler) makes the status Idle.  [forward()] makes it Idle when the
    advanced cursor holds no track or when the engine is Paused: on a Paused
    engine every [forward()] that can advance goes idle, whether or not
    tracks remain. *)
Theorem fresh_engine_paused (w : World) (guildId : string) :
  status (fresh guildId) = PAUSED
  /\ (forall ops, Forall quiet ops ->
        let s := runOps w ops (fresh guildId) in
        status s = PAUSED /\ pause s = (Throw NotPlaying, s))
  /\ (forall op s, noForward op -> status (snd (exec w op s)) = IDLE -> status s = IDLE)
  /\ (forall skip s, canGoForward skip s = true ->
        getCurrent (advanced skip s) = None \/ status s = PAUSED ->
        status (snd (forward w skip s)) = IDLE).
Proof.
  split; [reflexivity|]. split; [|split].
  - intros ops Hq s.
    assert (status s = PAUSED) as Hs by (apply quiet_runs_paused; auto).
    split; [exact Hs|]. unfold pause. rewrite Hs. reflexivity.
  - intros op s Hop Hidle.
    destruct (@exec_status w op s Hop) as [H|[[_ H]|[H _]]]; congruence.
  - intros skip s Hcan Hidle. rewrite forward_goes_idle by assumption.
    unfold goIdle. destruct (findUnique _ _ _) as [n|]; [|reflexivity].
    destruct (negb _); [|reflexivity].
    destruct (setTimeout _ _) as [h s1] eqn:E. unfold setTimeout in E.
    injection E as _ <-. reflexivity.
Qed.

Lemma fresh_engine_paused_witness :
  let s := runOps world_cached
             [OpConnect channel1; OpAdd songA false; OpAdd songB true; OpPause;
              EvAudioPlayerIdle; OpMove 1 1; OpBack; OpShuffle; EvTick]
             (fresh "guild-1") in
  status s = PAUSED
  /\ pause s = (Throw NotPlaying, s)
  /\ status (snd (forward world_cached 1 s)) = IDLE.
Proof.
  destruct (fresh_engine_paused world_cached "guild-1") as (_ & Hquiet & _ & Hfwd).
  cbv zeta.
  destruct (Hquiet [OpConnect channel1; OpAdd songA false; OpAdd songB true; OpPause;
                    EvAudioPlayerIdle; OpMove 1 1; OpBack; OpShuffle; EvTick])
    as [Hs Hp].
  - repeat constructor.
  - split; [exact Hs|]. split; [exact Hp|].
    apply Hfwd; [reflexivity|right; exact Hs].
Defined.

(** C10 as stated fails in two places.  [play()] is not the only call that
    starts playback: on an engine that never played, [seek(0)] leaves it
    Playing and [pause()] then returns.  And on a fresh engine with two tracks
    queued, [forward(1)] goes idle and arms the disconnect timer although the
    queue is not exhausted. *)
Lemma fresh_engine_seek_and_forward :
  (fst (seek world_cached 0 readyA) = Return tt
   /\ status (snd (seek world_cached 0 readyA)) = PLAYING
   /\ fst (pause (snd (seek world_cached 0 readyA))) = Return tt)
  /\ (queue freshForwarded = [Some songA; Some songB]
      /\ queuePosition freshForwarded = 1
      /\ getCurrent freshForwarded = Some songB
      /\ status freshForwarded = IDLE
      /\ timeouts freshForwarded = [(0%nat, 30000)]).
Proof. vm_compute. repeat split. Qed.

(** ** The queue invariant *)

Lemma splice_length {A : Type} (l : list A) (start deleteCount : Z) (items : list A) :
  let l' := snd (Js.splice l start deleteCount items) in
  (Js.clamp l start + List.length items <= List.length l'
   /\ List.length l + List.length items
      <= List.length l' + Z.to_nat (Z.max deleteCount 0))%nat.
Proof.
  unfold Js.splice. cbn [snd]. pose proof (clamp_le_length l start) as Hk.
  rewrite !length_app, length_firstn, length_skipn. unfold Js.len. lia.
Qed.

Lemma disconnect_same_cursor (s : State) : same_cursor s (disconnect s).
Proof.
  destruct s as [g vc st lp q qp ap np pi lu ps dt ts nt ck].
  unfold disconnect, pause, stopAudioPlayer. cbn.
  destruct vc; [|split; reflexivity]. destruct st, ap; split; reflexivity.
Qed.

Lemma same_cursor_in_range (s s' : State) :
  same_cursor s s' -> cursor_in_range s -> cursor_in_range s'.
Proof. intros [Hq Hp]. unfold cursor_in_range. rewrite Hq, Hp. auto. Qed.

Lemma advances_in_range (s s' : State) :
  advances s s' -> cursor_in_range s -> cursor_in_range s'.
Proof. intros (Hq & Hlo & Hhi) [H0 Hlen]. unfold cursor_in_range. rewrite Hq. lia. Qed.

Lemma forward_in_range (w : World) (skip : Z) (s : State) :
  1 <= skip -> cursor_in_range s -> cursor_in_range (snd (forward w skip s)).
Proof.
  intros Hskip [H0 Hlen]. pose proof (forward_returns w skip s) as E.
  destruct (forward w skip s) as [r s']. apply forward_n_forwarded in E.
  destruct E as (Hq & [(_ & _ & ->)|(_ & Hhi & Hlo)]); [split; assumption|].
  unfold cursor_in_range. cbn [snd]. rewrite Hq. destruct r; lia.
Qed.

Lemma play_in_range (w : World) (s : State) :
  cursor_in_range s -> cursor_in_range (snd (play w s)).
Proof.
  intros Hin. pose proof (play_returns w s) as E. destruct (play w s) as [r s'].
  apply play_n_advances in E. eapply advances_in_range; eassumption.
Qed.

Lemma back_in_range (w : World) (s : State) :
  cursor_in_range s -> cursor_in_range (snd (back w s)).
Proof.
  intros [H0 Hlen]. pose proof (back_returns w s) as E.
  destruct (back w s) as [r s']. unfold back_n in E. cbn [snd].
  destruct (canGoBack s) eqn:Hcan.
  - unfold canGoBack in Hcan. apply Z.geb_le in Hcan.
    destruct (negb _).
    + apply play_n_advances in E. eapply advances_in_range; [exact E|].
      unfold cursor_in_range. cbn. lia.
    + injection E as _ <-. unfold cursor_in_range. cbn. lia.
  - injection E as _ <-. split; assumption.
Qed.

Lemma onAudioPlayerIdle_in_range (w : World) (s : State) :
  cursor_in_range s -> cursor_in_range (snd (onAudioPlayerIdle w s)).
Proof.
  intros Hin. pose proof (onAudioPlayerIdle_returns w s) as E.
  destruct (onAudioPlayerIdle w s) as [r s']. unfold onAudioPlayerIdle_n in E. cbn [snd].
  destruct (_ && _).
  - injection E as E. pose proof (seek_same_cursor w 0 s) as Hs. rewrite E in Hs.
    eapply same_cursor_in_range; eassumption.
  - destruct (STATUS_eqb _ _).
    + pose proof (@forward_in_range w 1 s ltac:(lia) Hin) as Hf.
      rewrite forward_returns in E. injection E as E. rewrite E in Hf. exact Hf.
    + injection E as _ <-. exact Hin.
Qed.

Lemma add_in_range (song : Song.t) (immediate : bool) (s : State) :
  cursor_in_range s -> cursor_in_range (add song immediate s).
Proof.
  intros [H0 Hlen]. unfold cursor_in_range, add, Js.len in *.
  destruct (Song.playlist song), immediate; cbn [queue queuePosition set_queue];
    try (rewrite length_app; cbn; lia).
  rewrite slice_prefix. unfold Js.slice_from.
  rewrite !length_app, length_firstn, length_skipn. cbn [List.length].
  pose proof (clamp_le_length (queue s) (queuePosition s + 1)). lia.
Qed.

Lemma shuffle_in_range (w : World) (s : State) :
  shuffles w -> cursor_in_range s -> cursor_in_range (shuffle w s).
Proof.
  intros Hw [H0 Hlen]. unfold cursor_in_range, shuffle, Js.len in *.
  cbn [queue queuePosition set_queue tick set_clock].
  rewrite slice_prefix, length_app, length_firstn.
  rewrite <- (Permutation_length (Hw (clock s) _)). unfold Js.slice_from.
  rewrite length_skipn.
  pose proof (clamp_le_length (queue s) (queuePosition s + 1)). lia.
Qed.

Lemma clear_in_range (s : State) : cursor_in_range (clear s).
Proof.
  unfold cursor_in_range, clear, Js.len. cbn [queue queuePosition set_queue set_queuePosition].
  destruct (getCurrent s); cbn; lia.
Qed.

Lemma removeFromQueue_in_range (index amount : Z) (s : State) :
  0 <= index -> cursor_in_range s -> cursor_in_range (removeFromQueue index amount s).
Proof.
  intros Hi [H0 Hlen]. unfold cursor_in_range, removeFromQueue, Js.len in *.
  cbn [queue queuePosition set_queue].
  pose proof (splice_length (queue s) (queuePosition s + index) amount []) as [Hlo _].
  rewrite clamp_nonneg in Hlo by lia. unfold Js.len in Hlo. cbn [List.length] in Hlo. lia.
Qed.

Lemma removeCurrent_in_range (s : State) :
  cursor_in_range s -> cursor_in_range (removeCurrent s).
Proof.
  intros [H0 Hlen]. unfold cursor_in_range, removeCurrent, Js.len in *.
  cbn [queue queuePosition set_queue].
  rewrite slice_prefix. unfold Js.slice_from.
  rewrite length_app, length_firstn, length_skipn.
  rewrite !clamp_nonneg by lia. unfold Js.len. lia.
Qed.

Lemma move_in_range (from to : Z) (s : State) :
  cursor_in_range s -> cursor_in_range (snd (move from to s)).
Proof.
  intros [H0 Hlen]. unfold move. destruct (_ || _); [split; assumption|].
  pose proof (splice_length (queue s) (queuePosition s + from) 1 []) as [_ H1].
  destruct (Js.splice (queue s) (queuePosition s + from) 1 []) as [removed q1].
  cbn [snd] in *. unfold cursor_in_range. cbn [queue queuePosition set_queue].
  match goal with |- context [Js.splice q1 ?a 0 ?it] =>
    pose proof (splice_length q1 a 0 it) as [_ H2] end.
  unfold Js.len in *. cbn [List.length] in *. lia.
Qed.

Lemma exec_in_range (w : World) (op : Op) (s : State) :
  shuffles w -> valid_op op -> cursor_in_range s -> cursor_in_range (snd (exec w op s)).
Proof.
  intros Hw Hop Hin. destruct op; cbn [exec done snd].
  - exact Hin.
  - eapply same_cursor_in_range; [apply disconnect_same_cursor|exact Hin].
  - eapply same_cursor_in_range; [apply seek_same_cursor|exact Hin].
  - eapply same_cursor_in_range; [apply seek_same_cursor|exact Hin].
  - apply play_in_range, Hin.
  - unfold pause. destruct (negb _); [exact Hin|]. cbn [snd].
    destruct (audioPlayer _); exact Hin.
  - apply forward_in_range; assumption.
  - apply back_in_range, Hin.
  - apply add_in_range, Hin.
  - apply shuffle_in_range; assumption.
  - apply clear_in_range.
  - apply removeFromQueue_in_range; assumption.
  - apply removeCurrent_in_range, Hin.
  - unfold stop, cursor_in_range, Js.len. cbn. lia.
  - pose proof (@move_in_range from to s Hin) as H.
    destruct (move from to s) as [[x|e] s1]; exact H.
  - apply onAudioPlayerIdle_in_range, Hin.
  - eapply same_cursor_in_range; [apply disconnect_same_cursor|exact Hin].
  - unfold timeoutFires, disconnectIfIdle. destruct (existsb _ _); [|exact Hin].
    destruct (STATUS_eqb _ _); [|exact Hin].
    eapply same_cursor_in_range; [apply disconnect_same_cursor|exact Hin].
  - unfold positionTick. destruct (playPositionInterval s); exact Hin.
Qed.

(** C3 (as the code has it): in every state reached from a new engine through
    the public operations and the engine's event handlers, called with a skip
    of at least 1 and a removal index of at least 0, [0 <= cursor <= len(queue)]
    holds, whether the operations returned or threw. *)
Theorem cursor_invariant (s : State) :
  reachable s -> 0 <= queuePosition s <= Js.len (queue s).
Proof.
  induction 1 as [g|w op s Hs IH Hw Hop].
  - cbn. lia.
  - apply exec_in_range; assumption.
Qed.

Lemma shuffles_world_cached : shuffles world_cached.
Proof. intros t l. apply Permutation_rev. Qed.

Lemma cursor_invariant_witness :
  0 <= queuePosition idleDisconnected <= Js.len (queue idleDisconnected).
Proof.
  apply cursor_invariant. unfold idleDisconnected, runOps. cbn [fold_left].
  repeat (apply reach_step; [|apply shuffles_world_cached|cbn; try exact I; lia]).
  apply reach_fresh.
Defined.

(** C3 as stated fails outside those arguments: [forward(-1)] on a new engine
    leaves the cursor at -1, [forward(0)] that throws takes it from 0 to -1, and
    [removeFromQueue(-1)] at the end of the queue leaves the cursor past it. *)
Lemma cursor_invariant_needs_valid_arguments :
  (reachable_any (snd (forward world_cached (-1) (add songA false (fresh "guild-1"))))
   /\ queuePosition (snd (forward world_cached (-1) (add songA false (fresh "guild-1")))) = -1)
  /\ (fst (forward (world_gone None) 0 (fresh "guild-1")) = Throw SettingsNotFound
      /\ queuePosition (snd (forward (world_gone None) 0 (fresh "guild-1"))) = -1)
  /\ (queuePosition idleDisconnected = 2
      /\ queue (removeFromQueue (-1) 1 idleDisconnected) = [Some songA]
      /\ queuePosition (removeFromQueue (-1) 1 idleDisconnected) = 2).
Proof.
  split; [split|split].
  - apply (@reach_any_step world_cached (OpForward (-1))); [|apply shuffles_world_cached].
    apply (@reach_any_step world_cached (OpAdd songA false)); [|apply shuffles_world_cached].
    apply reach_any_fresh.
  - vm_compute. reflexivity.
  - vm_compute. split; reflexivity.
  - vm_compute. repeat split.
Qed.

(** ** Format selection *)

Section Sorting.
Variable key : Format.t -> Z.

Lemma insert_permutation (x : Format.t) (l : list Format.t) :
  Permutation (x :: l) (Js.insert (byKey key) x l).
Proof.
  induction l as [|y r IH]; cbn; [reflexivity|].
  destruct (byKey key x y <=? 0); [reflexivity|].
  rewrite perm_swap. apply perm_skip, IH.
Qed.

Lemma sort_permutation (l : list Format.t) : Permutation l (Js.sort (byKey key) l).
Proof.
  induction l as [|x r IH]; cbn; [reflexivity|].
  rewrite <- insert_permutation. apply perm_skip, IH.
Qed.

Lemma insert_descending (x : Format.t) (l : list Format.t) :
  descending key l -> descending key (Js.insert (byKey key) x l).
Proof.
  unfold descending. induction 1 as [|y r Hr IH Hy]; cbn.
  - repeat constructor.
  - unfold byKey at 1. destruct (Z.leb_spec (key y - key x) 0) as [Hle|Hgt].
    + constructor; [constructor; assumption|].
      constructor; [lia|]. eapply Forall_impl; [|exact Hy]. cbn. intros; lia.
    + constructor; [exact IH|].
      eapply Permutation_Forall; [apply insert_permutation|].
      constructor; [lia|exact Hy].
Qed.

Lemma sort_descending (l : list Format.t) : descending key (Js.sort (byKey key) l).
Proof.
  induction l as [|x r IH]; cbn; [constructor|]. apply insert_descending, IH.
Qed.

End Sorting.

Lemma find_none_permutation (p : Format.t -> bool) (l l' : list Format.t) :
  Permutation l l' -> find p l = None -> find p l' = None.
Proof.
  intros Hperm Hnone. destruct (find p l') as [f|] eqn:E; [|reflexivity].
  apply find_some in E. destruct E as [Hin Hp].
  apply (Permutation_in _ (Permutation_sym Hperm)) in Hin.
  eapply find_none in Hnone; [|exact Hin]. congruence.
Qed.

Section Comparator.
Variable cmp : Format.t -> Format.t -> Z.

Lemma insert_permutation_any (x : Format.t) (l : list Format.t) :
  Permutation (x :: l) (Js.insert cmp x l).
Proof.
  induction l as [|y r IH]; cbn; [reflexivity|].
  destruct (cmp x y <=? 0); [reflexivity|].
  rewrite perm_swap. apply perm_skip, IH.
Qed.

Lemma sort_permutation_any (l : list Format.t) : Permutation l (Js.sort cmp l).
Proof.
  induction l as [|x r IH]; cbn; [reflexivity|].
  rewrite <- insert_permutation_any. apply perm_skip, IH.
Qed.

End Comparator.

Lemma insert_ext (cmp cmp' : Format.t -> Format.t -> Z) (x : Format.t) (l : list Format.t) :
  (forall y, In y l -> cmp x y = cmp' x y) -> Js.insert cmp x l = Js.insert cmp' x l.
Proof.
  induction l as [|y r IH]; cbn; [reflexivity|]. intros H.
  rewrite (H y) by (left; reflexivity).
  destruct (cmp' x y <=? 0); [reflexivity|].
  rewrite IH; [reflexivity|]. intros z Hz. apply H. right. exact Hz.
Qed.

Lemma sort_ext (cmp cmp' : Format.t -> Format.t -> Z) (l : list Format.t) :
  (forall a b, In a l -> In b l -> cmp a b = cmp' a b) -> Js.sort cmp l = Js.sort cmp' l.
Proof.
  induction l as [|x r IH]; cbn; [reflexivity|]. intros H.
  rewrite IH by (intros a b Ha Hb; apply H; right; assumption).
  apply insert_ext. intros y Hy. apply H; [left; reflexivity|right].
  eapply Permutation_in; [apply Permutation_sym, sort_permutation_any|exact Hy].
Qed.

(** An engine whose sort is the stable insertion sort sorts as the standard
    asks. *)
Lemma sorts_insertion (w : World) :
  (forall cmp l, arraySort w cmp l = Js.sort cmp l) -> sorts w.
Proof.
  intros H cmp l. rewrite H. split; [apply sort_permutation_any|reflexivity].
Qed.

Lemma sorts_world_info (info : videoInfo) : sorts (world_info info).
Proof. apply sorts_insertion. reflexivity. Qed.

Lemma arraySort_by_key (w : World) (cmp : Format.t -> Format.t -> Z)
    (key : Format.t -> Z) (l : list Format.t) :
  sorts w ->
  (forall a b, In a l -> In b l -> cmp a b = key b - key a) ->
  arraySort w cmp l = Js.sort (byKey key) l.
Proof.
  intros Hs H. destruct (Hs cmp l) as [_ Hk]. rewrite (Hk key H).
  apply sort_ext. exact H.
Qed.

Lemma byAudioBitrate_rated (l : list Format.t) :
  rated l -> forall a b, In a l -> In b l -> byAudioBitrate a b = audio b - audio a.
Proof.
  intros Hr a b Ha Hb. unfold byAudioBitrate, audio.
  pose proof (Hr a Ha) as Ha'. pose proof (Hr b Hb) as Hb'.
  destruct (Format.audioBitrate b); [|congruence].
  destruct (Format.audioBitrate a); [reflexivity|congruence].
Qed.

Lemma targetFormat_spec (f : Format.t) :
  targetFormat f = true
  <-> Format.codecs f = "opus" /\ Format.container f = "webm"
      /\ exists r, Format.audioSampleRate f = Some r /\ Js.parseInt r = Some 48000.
Proof.
  unfold targetFormat. rewrite !andb_true_iff, !String.eqb_eq.
  destruct (Format.audioSampleRate f) as [r|].
  - destruct (Js.parseInt r) as [n|] eqn:Hn.
    + rewrite Z.eqb_eq. split.
      * intros [[Hc Hw] ->]. repeat split; try assumption. exists r. auto.
      * intros (Hc & Hw & r' & Hr & Hp). injection Hr as <-.
        rewrite Hn in Hp. injection Hp as ->. auto.
    + split; [intros [_ H]; discriminate|].
      intros (_ & _ & r' & Hr & Hp). injection Hr as <-. congruence.
  - split; [intros [_ H]; discriminate|].
    intros (_ & _ & r' & Hr & _). discriminate.
Qed.

Lemma hasPreferredItag_spec (f : Format.t) :
  hasPreferredItag f = true <-> In (Format.itag f) [128; 127; 120; 96; 95; 94; 93].
Proof.
  unfold hasPreferredItag, preferredItags. rewrite existsb_exists. split.
  - intros (x & Hin & Heq). apply Z.eqb_eq in Heq. rewrite Heq. exact Hin.
  - intros Hin. exists (Format.itag f). split; [exact Hin|apply Z.eqb_refl].
Qed.

Lemma selectFormat_selects (w : World) (f0 : Format.t) (rest : list Format.t) :
  sorts w ->
  selects (Format.isLive f0) (f0 :: rest) (selectFormat w (f0 :: rest)).
Proof.
  intros Hs. unfold selectFormat, Js.find.
  destruct (find targetFormat (f0 :: rest)) as [f|] eqn:Ht; [apply select_target, Ht|].
  unfold nextBestFormat, Js.find.
  destruct (Format.isLive f0) eqn:Hlive.
  - set (sorted := arraySort w byAudioBitrate (f0 :: rest)).
    assert (Permutation (f0 :: rest) sorted) as Hperm by apply (Hs byAudioBitrate).
    destruct (find hasPreferredItag sorted) as [f|] eqn:Hf.
    + eapply select_live with (sorted := sorted); auto.
      intros Hr. unfold sorted.
      rewrite (@arraySort_by_key w byAudioBitrate audio (f0 :: rest) Hs
                 (byAudioBitrate_rated Hr)).
      apply sort_descending.
    + apply select_live_none; auto.
      eapply find_none_permutation; [|exact Hf]. apply Permutation_sym, Hperm.
  - rewrite (@arraySort_by_key w byAverageBitrate avg (filter hasAverageBitrate (f0 :: rest)) Hs)
      by reflexivity.
    set (sorted := Js.sort (byKey avg) (filter hasAverageBitrate (f0 :: rest))).
    assert (Permutation (filter hasAverageBitrate (f0 :: rest)) sorted) as Hperm
      by apply (sort_permutation avg).
    assert (descending avg sorted) as Hdesc by apply (sort_descending avg).
    destruct (find lacksBitrate sorted) as [f|] eqn:Hf.
    + eapply select_untagged; eauto.
    + destruct sorted as [|f tl] eqn:Hsd; cbn.
      * apply select_none; auto. apply Permutation_sym, Permutation_nil in Hperm. exact Hperm.
      * eapply select_highest; eauto.
Qed.

(** C8 (as the code has it): on a cache miss for a Youtube track whose
    resolver returned at least one candidate, and with a sort that works as
    the standard asks, the format is chosen in this order: the first candidate in opus/webm/48000; else, if the first
    candidate is flagged live (the track's and the content's own liveness flags
    are not consulted), the first with an itag among 128, 127, 120, 96, 95, 94
    and 93 in the order the sort by audio bitrate leaves the candidates, which
    is by descending audio bitrate when each of them carries one; else the
    candidates with a known average bitrate by descending average bitrate, the
    first without a bitrate tag, or failing that the highest; the fetch fails
    with NoSuitableFormat when nothing survives, and otherwise streams the
    chosen candidate's URL. *)
Theorem getStream_format_selection
    (w : World) (song : Song.t) (seek to : option Z) (s : State)
    (info : videoInfo) (f0 : Format.t) (rest : list Format.t) :
  sorts w ->
  Song.source song = Youtube ->
  getPathFor w (clock s) (hasha w (Song.url song)) = None ->
  getInfo w (S (clock s)) (Song.url song) = Return info ->
  formats info = f0 :: rest ->
  selects (Format.isLive f0) (formats info) (selectFormat w (formats info))
  /\ match selectFormat w (formats info) with
     | Return f =>
         fst (getStream w song seek to s)
         = Return (createReadStream w (Format.url f)
                     (Some (reconnectOptions ++ trimOptions seek to,
                            shouldCache info seek to)))
     | Throw e =>
         e = NoSuitableFormat /\ fst (getStream w song seek to s) = Throw NoSuitableFormat
     end
  /\ (forall f, targetFormat f = true
        <-> Format.codecs f = "opus" /\ Format.container f = "webm"
            /\ exists r, Format.audioSampleRate f = Some r /\ Js.parseInt r = Some 48000)
  /\ (forall f, hasPreferredItag f = true
        <-> In (Format.itag f) [128; 127; 120; 96; 95; 94; 93]).
Proof.
  intros Hs Hsrc Hmiss Hinfo Hfmt.
  split; [|split; [|split; [exact targetFormat_spec|exact hasPreferredItag_spec]]].
  - rewrite Hfmt. apply selectFormat_selects, Hs.
  - unfold getStream. rewrite Hsrc. unfold getHashForCache. rewrite Hmiss.
    cbn [clock tick set_clock]. rewrite Hinfo.
    pose proof (selectFormat_selects f0 rest Hs) as Hsel. rewrite <- Hfmt in Hsel.
    destruct (selectFormat w (formats info)) as [f|e]; [reflexivity|].
    assert (e = NoSuitableFormat) as -> by (inversion Hsel; reflexivity).
    split; reflexivity.
Qed.

Lemma getStream_format_selection_witness :
  (* the opus/webm/48000 candidate, wherever it stands *)
  fst (getStream (world_info (videoOf [aac140; opus251])) songA None None (fresh "guild-1"))
  = Return (createReadStream (world_info (videoOf [aac140; opus251])) (Format.url opus251)
              (Some (reconnectOptions, true)))
  (* live: itag 300 ranks first and is passed over, 95 outranks 93 *)
  /\ fst (getStream (world_info (videoOf [hls93; hls300; hls95])) songA None None
            (fresh "guild-1"))
     = Return (createReadStream (world_info (videoOf [hls93; hls300; hls95]))
                 (Format.url hls95) (Some (reconnectOptions, true)))
  (* not live: the highest average bitrate among those without a bitrate tag *)
  /\ fst (getStream (world_info (videoOf [plain18; aac139; aac140; aac141])) songA None None
            (fresh "guild-1"))
     = Return (createReadStream (world_info (videoOf [plain18; aac139; aac140; aac141]))
                 (Format.url aac140) (Some (reconnectOptions, true)))
  (* not live, every candidate tagged: the highest average bitrate *)
  /\ fst (getStream (world_info (videoOf [aac139; aac141])) songA None None (fresh "guild-1"))
     = Return (createReadStream (world_info (videoOf [aac139; aac141])) (Format.url aac141)
                 (Some (reconnectOptions, true)))
  (* nothing survives *)
  /\ fst (getStream (world_info (videoOf [plain18])) songA None None (fresh "guild-1"))
     = Throw NoSuitableFormat
  /\ fst (getStream (world_info (videoOf [hls300])) songA None None (fresh "guild-1"))
     = Throw NoSuitableFormat.
Proof.
  split; [|split; [|split; [|split; [|split]]]].
  - exact (proj1 (proj2 (@getStream_format_selection _ songA None None (fresh "guild-1")
                           (videoOf [aac140; opus251]) aac140 [opus251]
                           (sorts_world_info _) eq_refl eq_refl eq_refl eq_refl))).
  - exact (proj1 (proj2 (@getStream_format_selection _ songA None None (fresh "guild-1")
                           (videoOf [hls93; hls300; hls95]) hls93 [hls300; hls95]
                           (sorts_world_info _) eq_refl eq_refl eq_refl eq_refl))).
  - exact (proj1 (proj2 (@getStream_format_selection _ songA None None (fresh "guild-1")
                           (videoOf [plain18; aac139; aac140; aac141]) plain18
                           [aac139; aac140; aac141]
                           (sorts_world_info _) eq_refl eq_refl eq_refl eq_refl))).
  - exact (proj1 (proj2 (@getStream_format_selection _ songA None None (fresh "guild-1")
                           (videoOf [aac139; aac141]) aac139 [aac141]
                           (sorts_world_info _) eq_refl eq_refl eq_refl eq_refl))).
  - exact (proj2 (proj1 (proj2 (@getStream_format_selection _ songA None None
                                  (fresh "guild-1") (videoOf [plain18]) plain18 []
                                  (sorts_world_info _) eq_refl eq_refl eq_refl eq_refl)))).
  - exact (proj2 (proj1 (proj2 (@getStream_format_selection _ songA None None
                                  (fresh "guild-1") (videoOf [hls300]) hls300 []
                                  (sorts_world_info _) eq_refl eq_refl eq_refl eq_refl)))).
Defined.

(** C8 as stated fails: the content is live by the track's flag and by the
    resolver's, the only candidate is not flagged live, and the code ranks it by
    average bitrate and streams it, where the order for live content finds no
    preferred itag and fails. *)
Lemma format_selection_ignores_content_liveness :
  Song.isLive liveSong = true
  /\ isLiveContent liveInfo = true
  /\ sorts world_live
  /\ selectFormat world_live (formats liveInfo) = Return aac140
  /\ fst (getStream world_live liveSong None None (fresh "guild-1"))
     = Return (createReadStream world_live (Format.url aac140) (Some (reconnectOptions, false)))
  /\ ~ selects true (formats liveInfo) (selectFormat world_live (formats liveInfo))
  /\ selects true (formats liveInfo) (Throw NoSuitableFormat).
Proof.
  split; [reflexivity|]. split; [reflexivity|].
  split; [apply sorts_insertion; reflexivity|].
  split; [reflexivity|]. split; [reflexivity|]. split.
  - change (selectFormat world_live (formats liveInfo)) with (@Return Format.t aac140).
    intros H. inversion H; subst; try discriminate.
    match goal with Hperm : Permutation (formats liveInfo) ?l |- _ =>
      cbn in Hperm; apply Permutation_length_1_inv in Hperm; subst l end.
    discriminate.
  - apply select_live_none; reflexivity.
Qed.

(** With no candidate at all the code does not reach NoSuitableFormat: reading
    [formats[0].isLive] throws a TypeError first. *)
Example selectFormat_empty (w : World) : selectFormat w [] = Throw UndefinedIsLive.
Proof. reflexivity. Qed.

(** * Further properties of the engine *)

(** ** [disconnect], [pause] and resuming *)

(** [disconnect()] is idempotent and leaves the engine without a connection;
    the queue and the cursor are untouched.  On a connected engine it also
    drops the audio player, switches loop mode off and never leaves the status
    Playing. *)
Theorem disconnect_idempotent (s : State) :
  disconnect (disconnect s) = disconnect s
  /\ voiceConnection (disconnect s) = None
  /\ queue (disconnect s) = queue s
  /\ queuePosition (disconnect s) = queuePosition s
  /\ (voiceConnection s <> None ->
      audioPlayer (disconnect s) = None
      /\ loopCurrentSong (disconnect s) = false
      /\ status (disconnect s) <> PLAYING).
Proof.
  destruct s as [g vc st lp q qp ap np pi lu ps dt ts nt ck].
  unfold disconnect, pause, stopAudioPlayer. cbn.
  destruct vc as [c|]; [|repeat split; congruence].
  destruct st, ap; cbn; repeat split; discriminate.
Qed.

Lemma disconnect_idempotent_witness :
  audioPlayer (disconnect playingA) = None
  /\ loopCurrentSong (disconnect playingA) = false
  /\ status (disconnect playingA) <> PLAYING.
Proof.
  destruct (disconnect_idempotent playingA) as (_ & _ & _ & _ & H).
  apply H. discriminate.
Defined.

Lemma ap_unpause_pause (p : AudioPlayer) :
  ap_status p = ApPlaying -> ap_unpause (ap_pause p) = p.
Proof. destruct p as [st r l]. cbn. intros ->. reflexivity. Qed.

(** On a connected engine whose status is Playing, whose current track has the
    URL of the track recorded as [nowPlaying], whose audio player is playing,
    whose position is being counted and which keeps no handle of a disconnect
    timeout (the state a [play()] that fetched its stream leaves), [pause()]
    returns and leaves the status Paused, and [play()] after it gives back the
    very state the engine was in: the track resumes on the same audio player,
    and neither the cache nor the resolver is asked again. *)
Theorem pause_play_round_trip
    (w : World) (s : State) (song np : Song.t) (p : AudioPlayer) :
  status s = PLAYING ->
  voiceConnection s <> None ->
  getCurrent s = Some song ->
  nowPlaying s = Some np ->
  Song.url song = Song.url np ->
  audioPlayer s = Some p ->
  ap_status p = ApPlaying ->
  playPositionInterval s = true ->
  disconnectTimer s = None ->
  fst (pause s) = Return tt
  /\ status (snd (pause s)) = PAUSED
  /\ play w (snd (pause s)) = (Return tt, s).
Proof.
  intros Hst Hvc Hcur Hnp Hurl Hap Hp Hpi Hdt.
  destruct s as [g vc st lp q qp ap np' pi lu ps dt ts nt ck].
  cbn in Hst, Hvc, Hnp, Hap, Hpi, Hdt. subst st ap np' pi dt.
  unfold pause. cbn. split; [reflexivity|]. split; [reflexivity|].
  apply (@play_run w 1%nat). cbn [play_n]. unfold play_with. cbn.
  destruct vc as [c|]; [|congruence].
  unfold getCurrent in *. cbn in *. rewrite Hcur.
  unfold cancelDisconnectTimer, resumes. cbn. rewrite Hurl, String.eqb_refl. cbn.
  rewrite ap_unpause_pause by assumption. reflexivity.
Qed.

Lemma pause_play_round_trip_witness :
  play world_cached (snd (pause playingA)) = (Return tt, playingA).
Proof.
  eapply (@pause_play_round_trip world_cached playingA songA songA).
  - reflexivity.
  - discriminate.
  - reflexivity.
  - reflexivity.
  - reflexivity.
  - vm_compute. reflexivity.
  - reflexivity.
  - reflexivity.
  - reflexivity.
Defined.

(** ** The stream pipeline *)

Lemma find_descending_max (key : Format.t -> Z) (p : Format.t -> bool)
    (l : list Format.t) (f : Format.t) :
  descending key l -> find p l = Some f ->
  forall g, In g l -> p g = true -> key g <= key f.
Proof.
  unfold descending. induction 1 as [|y r Hr IH Hy]; [discriminate|].
  cbn [find]. destruct (p y) eqn:Hpy.
  - intros E g [->|Hin] _; injection E as <-; [lia|].
    rewrite Forall_forall in Hy. specialize (Hy g Hin). lia.
  - intros E g [->|Hin] Hpg; [congruence|]. apply IH; assumption.
Qed.

Lemma head_descending_max (key : Format.t -> Z) (l : list Format.t) (f : Format.t) :
  descending key l -> Js.index l 0 = Some f ->
  forall g, In g l -> key g <= key f.
Proof.
  unfold descending. destruct 1 as [|y r Hr Hy]; [discriminate|].
  cbn. intros E g [->|Hin]; injection E as <-; [lia|].
  rewrite Forall_forall in Hy. specialize (Hy g Hin). lia.
Qed.

Lemma in_sort (key : Format.t -> Z) (l : list Format.t) (g : Format.t) :
  In g (Js.sort (byKey key) l) <-> In g l.
Proof.
  split; apply Permutation_in;
    [apply Permutation_sym|]; apply sort_permutation.
Qed.

(** The format chosen on a cache miss is always one of the resolver's
    candidates.  Unless it is the opus/webm/48000 one, it is, for a list whose
    first candidate is flagged live, a candidate with a preferred itag, and of
    the highest audio bitrate among those provided every candidate carries an
    audio bitrate (the order of the itag list plays no part; when a candidate
    carries none the comparator is not consistent and the choice among the
    preferred itags is the sort's); otherwise it has a non-zero average
    bitrate, the highest among the candidates without a bitrate tag if it has
    none itself, and the highest of all when every such candidate carries a
    bitrate tag. *)
Theorem selectFormat_chooses_best (w : World) (candidates : list Format.t) (f : Format.t) :
  sorts w ->
  selectFormat w candidates = Return f ->
  In f candidates
  /\ (targetFormat f = true
      \/ exists f0 rest,
           candidates = f0 :: rest
           /\ find targetFormat candidates = None
           /\ if Format.isLive f0 then
                hasPreferredItag f = true
                /\ (rated candidates ->
                    forall g, In g candidates -> hasPreferredItag g = true ->
                      audio g <= audio f)
              else
                hasAverageBitrate f = true
                /\ (forall g, In g candidates -> hasAverageBitrate g = true ->
                      lacksBitrate g = lacksBitrate f -> avg g <= avg f)
                /\ (lacksBitrate f = false ->
                    forall g, In g candidates -> hasAverageBitrate g = true ->
                      lacksBitrate g = false /\ avg g <= avg f)).
Proof.
  intros Hs. unfold selectFormat, Js.find.
  destruct (find targetFormat candidates) as [t|] eqn:Ht.
  { intros E. injection E as <-. apply find_some in Ht. tauto. }
  destruct candidates as [|f0 rest]; [discriminate|].
  unfold nextBestFormat, Js.find. destruct (Format.isLive f0) eqn:Hlive.
  - destruct (find hasPreferredItag _) as [h|] eqn:Hf; [|discriminate].
    intros E. injection E as <-.
    pose proof (find_some _ _ Hf) as [Hin Hp].
    apply (Permutation_in _ (Permutation_sym (proj1 (Hs byAudioBitrate (f0 :: rest))))) in Hin.
    split; [exact Hin|]. right. exists f0, rest. rewrite Hlive.
    repeat split; auto. intros Hr g Hg Hpg.
    rewrite (@arraySort_by_key w byAudioBitrate audio (f0 :: rest) Hs
               (byAudioBitrate_rated Hr)) in Hf.
    eapply (@find_descending_max audio); [apply sort_descending|exact Hf| |exact Hpg].
    apply (proj2 (@in_sort audio _ _)). exact Hg.
  - set (known := filter hasAverageBitrate (f0 :: rest)).
    rewrite (@arraySort_by_key w byAverageBitrate avg known Hs) by reflexivity.
    pose proof (sort_descending avg known) as Hdesc.
    destruct (find lacksBitrate (Js.sort (byKey avg) known)) as [h|] eqn:Hf.
    + intros E. injection E as <-.
      pose proof (find_some _ _ Hf) as [Hin Hl]. apply (proj1 (@in_sort avg _ _)) in Hin.
      apply filter_In in Hin. destruct Hin as [Hin Havg].
      split; [exact Hin|]. right. exists f0, rest. rewrite Hlive.
      split; [reflexivity|]. split; [auto|]. split; [exact Havg|].
      split; [|intros; congruence].
      intros g Hg Hga Hgl. rewrite Hl in Hgl.
      eapply (@find_descending_max avg); [exact Hdesc|exact Hf| |exact Hgl].
      apply (proj2 (@in_sort avg _ _)), filter_In. split; assumption.
    + destruct (Js.index (Js.sort (byKey avg) known) 0) as [h|] eqn:Hh; [|discriminate].
      intros E. injection E as <-.
      assert (In h (Js.sort (byKey avg) known)) as Hin.
      { destruct (Js.sort (byKey avg) known); [discriminate|].
        cbn in Hh. injection Hh as ->. left. reflexivity. }
      assert (forall g, In g (f0 :: rest) -> hasAverageBitrate g = true ->
                lacksBitrate g = false /\ avg g <= avg h) as Hall.
      { intros g Hg Hga.
        assert (In g (Js.sort (byKey avg) known)) as Hgs
          by (apply (proj2 (@in_sort avg _ _)), filter_In; split; assumption).
        split; [|eapply (@head_descending_max avg); [exact Hdesc|exact Hh|exact Hgs]].
        destruct (lacksBitrate g) eqn:Hgl; [|reflexivity].
        eapply find_none in Hf; [|exact Hgs]. congruence. }
      apply (proj1 (@in_sort avg _ _)) in Hin. apply filter_In in Hin. destruct Hin as [Hin Havg].
      split; [exact Hin|]. right. exists f0, rest. rewrite Hlive.
      split; [reflexivity|]. split; [auto|]. split; [exact Havg|].
      split; [|intros _; exact Hall].
      intros g Hg Hga _. apply Hall; assumption.
Qed.

Lemma rated_hls : rated [hls93; hls300; hls95].
Proof.
  intros f [<-|[<-|[<-|[]]]]; discriminate.
Qed.

Lemma selectFormat_chooses_best_witness :
  selectFormat (world_info (videoOf [hls93; hls300; hls95])) [hls93; hls300; hls95]
  = Return hls95
  /\ In hls95 [hls93; hls300; hls95]
  /\ hasPreferredItag hls95 = true
  /\ hasPreferredItag hls300 = false
  /\ audio hls93 <= audio hls95.
Proof.
  split; [reflexivity|].
  destruct (@selectFormat_chooses_best (world_info (videoOf [hls93; hls300; hls95]))
              [hls93; hls300; hls95] hls95) as [Hin [Ht|(f0 & rest & E & _ & H)]].
  - apply sorts_world_info.
  - reflexivity.
  - discriminate Ht.
  - injection E as <- <-. cbn [hls93 hls Format.isLive] in H. destruct H as [Hp Hmax].
    split; [exact Hin|]. split; [exact Hp|]. split; [reflexivity|].
    apply (Hmax rated_hls); [left; reflexivity|reflexivity].
Defined.

(** [getStream] fails only on a cache miss of a Youtube track, and then with
    the error of the resolver or of the format selection: an HLS track and a
    cached track always get their stream. *)
Theorem getStream_failure
    (w : World) (song : Song.t) (seek to : option Z) (s s' : State) (e : exn) :
  getStream w song seek to s = (Throw e, s') ->
  Song.source song = Youtube
  /\ getPathFor w (clock s) (hasha w (Song.url song)) = None
  /\ (getInfo w (S (clock s)) (Song.url song) = Throw e
      \/ exists info, getInfo w (S (clock s)) (Song.url song) = Return info
                      /\ selectFormat w (formats info) = Throw e).
Proof.
  unfold getStream, getHashForCache. destruct (Song.source song); [|discriminate].
  destruct (getPathFor w _ _); [discriminate|]. cbn [clock tick set_clock].
  destruct (getInfo w _ _) as [info|e1] eqn:Hi.
  - destruct (selectFormat _) as [f|e1] eqn:Hs; [discriminate|].
    intros E. injection E as <- _. repeat split. right. exists info. auto.
  - intros E. injection E as <- _. repeat split. left. reflexivity.
Qed.

Lemma getStream_failure_witness :
  getPathFor (world_gone None) (clock readyA) (hasha (world_gone None) (Song.url songA)) = None.
Proof.
  destruct (@getStream_failure (world_gone None) songA None None readyA
              (snd (getStream (world_gone None) songA None None readyA)) gone) as (_ & H & _).
  - reflexivity.
  - exact H.
Defined.

(** A stream is tee'd into the cache only when it was fetched from the
    resolver in full (no seek or stop bound), for content that is not live and
    shorter than 30 minutes; the key it is written under is the hash of the
    chosen format's URL, which is also the stream's input. *)
Theorem getStream_caches_only_full_fetches
    (w : World) (song : Song.t) (seek to : option Z) (s s' : State)
    (stream : Stream) (k : string) :
  getStream w song seek to s = (Return stream, s') ->
  cacheKey stream = Some k ->
  Song.source song = Youtube
  /\ getPathFor w (clock s) (hasha w (Song.url song)) = None
  /\ Js.truthy_opt seek = false
  /\ Js.truthy_opt to = false
  /\ k = hasha w (input stream)
  /\ exists info f n,
       getInfo w (S (clock s)) (Song.url song) = Return info
       /\ selectFormat w (formats info) = Return f
       /\ input stream = Format.url f
       /\ isLiveContent info = false
       /\ Js.parseInt (lengthSeconds info) = Some n
       /\ n < 30 * 60.
Proof.
  unfold getStream, getHashForCache. destruct (Song.source song).
  2:{ intros E. injection E as <- _. discriminate. }
  destruct (getPathFor w _ _).
  { intros E. injection E as <- _. discriminate. }
  cbn [clock tick set_clock].
  destruct (getInfo w _ _) as [info|e1] eqn:Hi; [|discriminate].
  destruct (selectFormat _) as [f|e1] eqn:Hs; [|discriminate].
  intros E. injection E as <- _. unfold createReadStream. cbn [cacheKey input].
  destruct (shouldCache info seek to) eqn:Hc; [|discriminate].
  intros E. injection E as <-.
  unfold shouldCache in Hc. apply andb_prop in Hc. destruct Hc as [Hc Hto].
  apply andb_prop in Hc. destruct Hc as [Hc Hseek].
  apply andb_prop in Hc. destruct Hc as [Hlive Hlen].
  destruct (Js.parseInt (lengthSeconds info)) as [n|] eqn:Hn; [|discriminate].
  apply Z.ltb_lt in Hlen. apply negb_true_iff in Hlive, Hseek, Hto.
  repeat split; auto. exists info, f, n. unfold MAX_CACHE_LENGTH_SECONDS in Hlen.
  repeat split; auto.
Qed.

Lemma getStream_caches_only_full_fetches_witness :
  exists stream s',
    getStream world_short songA None None (fresh "guild-1") = (Return stream, s')
    /\ cacheKey stream = Some "https://cdn.example.org/140"
    /\ "https://cdn.example.org/140" = hasha world_short (input stream).
Proof.
  eexists. eexists. split; [vm_compute; reflexivity|]. split; [reflexivity|].
  eapply (@getStream_caches_only_full_fetches world_short songA None None (fresh "guild-1")).
  - vm_compute. reflexivity.
  - reflexivity.
Defined.




(** ** More on the queue mutators *)

Lemma slice_from_nonneg {A : Type} (l : list A) (i : Z) :
  0 <= i -> Js.slice_from l i = skipn (Z.to_nat i) l.
Proof.
  intros Hi. unfold Js.slice_from. rewrite clamp_nonneg by assumption. unfold Js.len.
  destruct (Z.le_gt_cases i (Z.of_nat (List.length l))).
  - rewrite Z.min_l by lia. reflexivity.
  - rewrite Z.min_r by lia. rewrite Nat2Z.id, !skipn_beyond by lia. reflexivity.
Qed.

Lemma slice_prefix_nonneg {A : Type} (l : list A) (i : Z) :
  0 <= i -> Js.slice l 0 i = firstn (Z.to_nat i) l.
Proof.
  intros Hi. rewrite slice_prefix, clamp_nonneg by assumption. unfold Js.len.
  destruct (Z.le_gt_cases i (Z.of_nat (List.length l))).
  - rewrite Z.min_l by lia. reflexivity.
  - rewrite Z.min_r by lia. rewrite Nat2Z.id, !firstn_beyond by lia. reflexivity.
Qed.

Lemma index_nonneg {A : Type} (l : list A) (i : Z) :
  0 <= i -> Js.index l i = nth_error l (Z.to_nat i).
Proof. intros Hi. unfold Js.index. destruct (Z.ltb_spec i 0); [lia|reflexivity]. Qed.

(** [clear()] keeps the current track current and drops every other one: the
    cursor is 0, at most one track is left, nothing is upcoming, and a second
    [clear()] changes nothing. *)
Theorem clear_keeps_current (s : State) :
  queuePosition (clear s) = 0
  /\ getCurrent (clear s) = getCurrent s
  /\ getQueue (clear s) = []
  /\ Js.len (queue (clear s)) <= 1
  /\ clear (clear s) = clear s.
Proof.
  unfold clear, getQueue, Js.len.
  destruct (getCurrent s) as [c|] eqn:Hc; cbn; repeat split; lia.
Qed.

(** [shuffle()] permutes the tracks after the cursor and nothing else: the
    queue up to and including the current track is as before, the upcoming
    tracks are the same tracks in some order, and the cursor does not move. *)
Theorem shuffle_permutes_upcoming (w : World) (s : State) :
  shuffles w ->
  0 <= queuePosition s ->
  let upto := Z.to_nat (queuePosition s + 1) in
  firstn upto (queue (shuffle w s)) = firstn upto (queue s)
  /\ Permutation (getQueue s) (getQueue (shuffle w s))
  /\ Permutation (queue s) (queue (shuffle w s))
  /\ getCurrent (shuffle w s) = getCurrent s
  /\ queuePosition (shuffle w s) = queuePosition s.
Proof.
  intros Hw Hc upto.
  assert (queue (shuffle w s)
          = firstn upto (queue s) ++ arrayShuffle w (clock s) (skipn upto (queue s))) as Hq.
  { unfold shuffle. cbn [queue queuePosition set_queue tick set_clock clock].
    rewrite slice_prefix_nonneg, slice_from_nonneg by lia. reflexivity. }
  pose proof (Hw (clock s) (skipn upto (queue s))) as Hperm.
  assert (List.length (queue (shuffle w s)) = List.length (queue s)) as Hlen.
  { rewrite Hq, length_app, <- (Permutation_length Hperm), <- length_app, firstn_skipn.
    reflexivity. }
  assert (firstn upto (queue (shuffle w s)) = firstn upto (queue s)) as Hpre.
  { rewrite Hq. destruct (Nat.le_gt_cases upto (List.length (queue s))) as [Hin|Hout].
    - rewrite firstn_app, length_firstn, Nat.min_l by assumption.
      rewrite Nat.sub_diag. cbn. rewrite app_nil_r, firstn_firstn, Nat.min_id. reflexivity.
    - rewrite skipn_beyond in Hperm |- * by lia.
      apply Permutation_nil in Hperm. rewrite Hperm, app_nil_r, firstn_firstn, Nat.min_id.
      reflexivity. }
  split; [exact Hpre|]. split; [|split; [|split]].
  - unfold getQueue. change (queuePosition (shuffle w s)) with (queuePosition s).
    rewrite !slice_from_nonneg by lia. fold upto.
    rewrite <- (firstn_skipn upto (queue (shuffle w s))) in Hq. rewrite Hpre in Hq.
    apply app_inv_head in Hq. rewrite Hq. exact Hperm.
  - rewrite Hq. rewrite <- (firstn_skipn upto (queue s)) at 1.
    apply Permutation_app_head, Hperm.
  - unfold getCurrent. change (queuePosition (shuffle w s)) with (queuePosition s).
    rewrite !index_nonneg by lia.
    assert (forall l : list Slot, nth_error l (Z.to_nat (queuePosition s))
                                  = nth_error (firstn upto l) (Z.to_nat (queuePosition s))) as Hn.
    { intros l. rewrite nth_error_firstn.
      destruct (Nat.ltb_spec (Z.to_nat (queuePosition s)) upto); [reflexivity|].
      unfold upto in *. lia. }
    rewrite (Hn (queue (shuffle w s))), (Hn (queue s)), Hpre. reflexivity.
  - reflexivity.
Qed.

Lemma shuffle_permutes_upcoming_witness :
  queue (shuffle world_cached playingA) = [Some songA; Some songC; Some songB]
  /\ getCurrent (shuffle world_cached playingA) = getCurrent playingA.
Proof.
  destruct (@shuffle_permutes_upcoming world_cached playingA)
    as (_ & _ & _ & Hcur & _).
  - apply shuffles_world_cached.
  - vm_compute. discriminate.
  - split; [reflexivity|exact Hcur].
Defined.

(** [removeCurrent()] is [removeFromQueue(0, 1)]: the track after the current
    one becomes current and the cursor stays; with no current track the queue is
    left as it is. *)
Theorem removeCurrent_promotes_next (s : State) :
  0 <= queuePosition s ->
  removeCurrent s = removeFromQueue 0 1 s
  /\ queuePosition (removeCurrent s) = queuePosition s
  /\ Js.index (queue (removeCurrent s)) (queuePosition s)
     = Js.index (queue s) (queuePosition s + 1)
  /\ (queuePosition s < Js.len (queue s) ->
      Js.len (queue (removeCurrent s)) = Js.len (queue s) - 1)
  /\ (Js.len (queue s) <= queuePosition s -> queue (removeCurrent s) = queue s).
Proof.
  intros Hc.
  assert (queue (removeCurrent s)
          = firstn (Z.to_nat (queuePosition s)) (queue s)
            ++ skipn (S (Z.to_nat (queuePosition s))) (queue s)) as Hq.
  { unfold removeCurrent. cbn [queue set_queue].
    rewrite slice_prefix_nonneg, slice_from_nonneg by lia. do 2 f_equal. lia. }
  split; [|split; [reflexivity|split; [|split]]].
  - unfold removeCurrent, removeFromQueue. f_equal.
    rewrite splice_remove by lia.
    rewrite slice_prefix_nonneg, slice_from_nonneg by lia.
    rewrite Z.add_0_r. do 2 f_equal. lia.
  - rewrite Hq. rewrite !index_nonneg by lia. unfold Js.len.
    destruct (Nat.le_gt_cases (List.length (queue s)) (Z.to_nat (queuePosition s)))
      as [Hout|Hin].
    + rewrite firstn_beyond, skipn_beyond, app_nil_r by lia.
      rewrite !(proj2 (nth_error_None _ _)) by lia. reflexivity.
    + rewrite nth_error_app2; rewrite length_firstn, Nat.min_l by lia; [|lia].
      rewrite Nat.sub_diag, nth_error_skipn. f_equal. lia.
  - intros Hlt. rewrite Hq. unfold Js.len in *.
    rewrite length_app, length_firstn, length_skipn. lia.
  - intros Hle. rewrite Hq. unfold Js.len in *.
    rewrite firstn_beyond, skipn_beyond, app_nil_r by lia. reflexivity.
Qed.

Lemma removeCurrent_promotes_next_witness :
  getCurrent (removeCurrent playingA) = Some songB.
Proof.
  destruct (@removeCurrent_promotes_next playingA) as (_ & _ & H & _).
  - vm_compute. discriminate.
  - unfold getCurrent. change (queuePosition (removeCurrent playingA)) with (queuePosition playingA).
    rewrite H. reflexivity.
Defined.

Lemma splice_take_one {A : Type} (l : list A) (start : Z) :
  0 <= start < Js.len l ->
  exists x, nth_error l (Z.to_nat start) = Some x
            /\ Js.splice l start 1 []
               = ([x], firstn (Z.to_nat start) l ++ skipn (S (Z.to_nat start)) l).
Proof.
  intros [H0 Hlt]. unfold Js.len in Hlt.
  destruct (nth_error l (Z.to_nat start)) as [x|] eqn:Hx.
  2:{ apply nth_error_None in Hx. lia. }
  exists x. split; [reflexivity|].
  assert (Js.clamp l start = Z.to_nat start) as Hk
    by (rewrite clamp_nonneg by assumption; unfold Js.len; lia).
  unfold Js.splice. rewrite Hk.
  assert (Z.to_nat (Z.min (Z.max 1 0) (Js.len l - Z.of_nat (Z.to_nat start))) = 1%nat)
    as -> by (unfold Js.len; lia).
  cbn [app]. f_equal; [|do 2 f_equal; lia].
  apply nth_error_split in Hx. destruct Hx as (l1 & l2 & -> & Hl1).
  rewrite <- Hl1, skipn_app, Nat.sub_diag, skipn_all. reflexivity.
Qed.

Lemma splice_insert_one {A : Type} (l : list A) (start : Z) (x : A) :
  0 <= start <= Js.len l ->
  Js.splice l start 0 [x]
  = ([], firstn (Z.to_nat start) l ++ x :: skipn (Z.to_nat start) l).
Proof.
  intros [H0 Hle].
  assert (Js.clamp l start = Z.to_nat start) as Hk
    by (rewrite clamp_nonneg by assumption; lia).
  unfold Js.splice. rewrite Hk.
  assert (Z.to_nat (Z.min (Z.max 0 0) (Js.len l - Z.of_nat (Z.to_nat start))) = O)
    as -> by lia.
  cbn. rewrite Nat.add_0_r. reflexivity.
Qed.

Lemma firstn_app_short {A : Type} (n m : nat) (l r : list A) :
  (n <= m <= List.length l)%nat -> firstn n (firstn m l ++ r) = firstn n l.
Proof.
  intros [Hnm Hm]. rewrite firstn_app, length_firstn, Nat.min_l by assumption.
  replace (n - m)%nat with O by lia. cbn. rewrite app_nil_r, firstn_firstn.
  rewrite Nat.min_l by assumption. reflexivity.
Qed.

Lemma queueSize_current (s : State) :
  0 <= queuePosition s < Js.len (queue s) ->
  queueSize s = Js.len (queue s) - queuePosition s - 1.
Proof.
  intros [H0 Hlt]. unfold queueSize, getQueue, Js.len in *.
  rewrite slice_from_nonneg, length_skipn by lia. lia.
Qed.

(** [move(from, to)] with both positions among the upcoming tracks (position 1
    is the next track) takes the track at [cursor+from] out and puts it back at
    [cursor+to]: it is returned, the queue is a permutation of what it was, and
    the part up to and including the current track, and the cursor, are
    unchanged. *)
Theorem move_relocates (from to : Z) (s : State) :
  0 <= queuePosition s < Js.len (queue s) ->
  1 <= from <= queueSize s ->
  1 <= to <= queueSize s ->
  exists item,
    Js.index (queue s) (queuePosition s + from) = Some item
    /\ fst (move from to s) = Return item
    /\ Js.index (queue (snd (move from to s))) (queuePosition s + to) = Some item
    /\ Permutation (queue s) (queue (snd (move from to s)))
    /\ firstn (Z.to_nat (queuePosition s + 1)) (queue (snd (move from to s)))
       = firstn (Z.to_nat (queuePosition s + 1)) (queue s)
    /\ queuePosition (snd (move from to s)) = queuePosition s.
Proof.
  intros Hc Hfrom Hto. pose proof (queueSize_current s Hc) as Hsize.
  unfold move.
  destruct (Z.gtb_spec from (queueSize s)); [lia|].
  destruct (Z.gtb_spec to (queueSize s)); [lia|]. cbn [orb].
  destruct (@splice_take_one _ (queue s) (queuePosition s + from)) as (item & Hitem & ->);
    [lia|].
  set (k := Z.to_nat (queuePosition s + from)) in *.
  set (q1 := firstn k (queue s) ++ skipn (S k) (queue s)).
  assert (Z.of_nat (List.length q1) = Js.len (queue s) - 1) as Hlen1.
  { unfold q1, Js.len in *. rewrite length_app, length_firstn, length_skipn. lia. }
  rewrite (@splice_insert_one _ q1 (queuePosition s + to) item) by (unfold Js.len; lia).
  set (k2 := Z.to_nat (queuePosition s + to)).
  cbn [fst snd queue queuePosition set_queue].
  assert (queue s = firstn k (queue s) ++ item :: skipn (S k) (queue s)) as Hsplit.
  { apply nth_error_split in Hitem. destruct Hitem as (l1 & l2 & E & Hl1).
    rewrite E at 1. rewrite E. subst k. rewrite <- Hl1.
    rewrite firstn_app, Nat.sub_diag, firstn_all. cbn [firstn]. rewrite app_nil_r.
    replace (S (List.length l1)) with (List.length (l1 ++ [item]))
      by (rewrite length_app; cbn; lia).
    replace (l1 ++ item :: l2) with ((l1 ++ [item]) ++ l2) at 2
      by (rewrite <- app_assoc; reflexivity).
    rewrite skipn_app, Nat.sub_diag, skipn_all. reflexivity. }
  assert (nth_error (firstn k2 q1 ++ item :: skipn k2 q1) k2 = Some item) as Hat.
  { rewrite nth_error_app2; rewrite length_firstn, Nat.min_l by (unfold k2; lia);
      [|lia]. rewrite Nat.sub_diag. reflexivity. }
  exists item. split; [|split; [|split; [|split; [|split]]]].
  - rewrite index_nonneg by lia. exact Hitem.
  - rewrite index_nonneg by lia. fold k2. rewrite Hat. reflexivity.
  - rewrite index_nonneg by lia. exact Hat.
  - rewrite Hsplit at 1.
    transitivity (item :: q1); [symmetry; apply Permutation_middle|].
    rewrite <- (firstn_skipn k2 q1) at 1. apply Permutation_middle.
  - unfold Js.len in *.
    rewrite firstn_app_short by (unfold k2; lia).
    unfold q1. apply firstn_app_short. unfold k. lia.
  - reflexivity.
Qed.

Lemma move_relocates_witness :
  fst (move 2 1 playingA) = Return (Some songC)
  /\ queue (snd (move 2 1 playingA)) = [Some songA; Some songC; Some songB].
Proof.
  destruct (@move_relocates 2 1 playingA) as (item & Hi & Hr & _).
  - vm_compute. split; [discriminate|reflexivity].
  - vm_compute. split; discriminate.
  - vm_compute. split; discriminate.
  - split; [|reflexivity]. rewrite Hr. f_equal.
    vm_compute in Hi. injection Hi as <-. reflexivity.
Defined.

Lemma index_snoc {A : Type} (l : list A) (x : A) :
  Js.index (l ++ [x]) (Js.len l) = Some x.
Proof.
  rewrite index_nonneg by (unfold Js.len; lia). unfold Js.len. rewrite Nat2Z.id.
  rewrite nth_error_app2, Nat.sub_diag by lia. reflexivity.
Qed.

Lemma splice_at_end_remove {A : Type} (l : list A) :
  Js.splice l (Js.len l) 1 [] = ([], l).
Proof.
  unfold Js.splice. rewrite clamp_nonneg by (unfold Js.len; lia).
  rewrite Z.min_id. unfold Js.len. rewrite Nat2Z.id.
  replace (Z.to_nat (Z.min (Z.max 1 0) _)) with O by lia.
  rewrite Nat.add_0_r, firstn_all, skipn_all. cbn. rewrite app_nil_r. reflexivity.
Qed.

Lemma splice_at_end_insert {A : Type} (l : list A) (x : A) :
  Js.splice l (Js.len l) 0 [x] = ([], l ++ [x]).
Proof.
  rewrite splice_insert_one by (unfold Js.len; lia).
  unfold Js.len. rewrite Nat2Z.id, firstn_all, skipn_all. reflexivity.
Qed.

(** [move] rejects a position beyond the upcoming tracks and then changes
    nothing; but positions [(0, 0)] pass the check even when the cursor stands
    at the end of the queue, and there the call stores an [undefined] entry at
    the cursor, which is not a current track. *)
Theorem move_edge_cases (from to : Z) (s : State) :
  (from > queueSize s \/ to > queueSize s ->
   move from to s = (Throw IndexOutOfRange, s))
  /\ (queuePosition s = Js.len (queue s) ->
      fst (move 0 0 s) = Return None
      /\ queue (snd (move 0 0 s)) = queue s ++ [None]
      /\ getCurrent (snd (move 0 0 s)) = None).
Proof.
  split.
  - intros H. unfold move.
    destruct (Z.gtb_spec from (queueSize s)); [reflexivity|].
    destruct (Z.gtb_spec to (queueSize s)); [reflexivity|lia].
  - intros Hc. destruct s as [g vc st lp q qp ap np pi lu ps dt ts nt ck].
    cbn [queue queuePosition] in Hc. subst qp.
    unfold move, queueSize, getQueue, getCurrent.
    cbn [queue queuePosition set_queue]. unfold Slot in *.
    rewrite slice_from_nonneg by (unfold Js.len; lia).
    rewrite skipn_beyond by (unfold Js.len; lia).
    cbn [Js.len List.length Z.of_nat Z.gtb Z.compare orb]. rewrite Z.add_0_r.
    rewrite splice_at_end_remove, splice_at_end_insert.
    cbn [fst snd queue queuePosition set_queue]. rewrite !index_snoc. repeat split.
Qed.

Lemma move_edge_cases_witness :
  queue (snd (move 0 0 (fresh "guild-1"))) = [None].
Proof.
  destruct (@move_edge_cases 0 0 (fresh "guild-1")) as (_ & H).
  destruct H as (_ & Hq & _); [reflexivity|]. rewrite Hq. reflexivity.
Defined.

(** What [add] does to the views: with a current track, an immediate add of a
    track outside a playlist makes it the next track, and any other add makes
    it the last upcoming one, one more track being upcoming either way; the
    current track is unchanged.  With the cursor at the end of the queue the
    added track becomes the current one. *)
Theorem add_views (t : Song.t) (immediate : bool) (s : State) :
  0 <= queuePosition s <= Js.len (queue s) ->
  (queuePosition s < Js.len (queue s) ->
     getCurrent (add t immediate s) = getCurrent s
     /\ queueSize (add t immediate s) = queueSize s + 1
     /\ getQueue (add t immediate s)
        = match Song.playlist t, immediate with
          | None, true => Some t :: getQueue s
          | _, _ => getQueue s ++ [Some t]
          end)
  /\ (queuePosition s = Js.len (queue s) ->
      getCurrent (add t immediate s) = Some t
      /\ getQueue (add t immediate s) = []).
Proof.
  intros Hinv.
  assert (queuePosition (add t immediate s) = queuePosition s) as Hp
    by (unfold add; destruct (Song.playlist t), immediate; reflexivity).
  assert (queue (add t immediate s)
          = match Song.playlist t, immediate with
            | None, true =>
                firstn (Z.to_nat (queuePosition s + 1)) (queue s)
                ++ Some t :: skipn (Z.to_nat (queuePosition s + 1)) (queue s)
            | _, _ => queue s ++ [Some t]
            end) as Hq.
  { unfold add. destruct (Song.playlist t), immediate; try reflexivity.
    cbn [queue set_queue]. rewrite slice_prefix_nonneg, slice_from_nonneg by lia.
    reflexivity. }
  unfold getCurrent, queueSize, getQueue. rewrite Hp.
  rewrite !slice_from_nonneg, !index_nonneg by lia. unfold Js.len in *.
  set (c := Z.to_nat (queuePosition s)) in *.
  replace (Z.to_nat (queuePosition s + 1)) with (S c) in * by lia.
  split.
  - intros Hlt. assert (c < List.length (queue s))%nat as Hc by lia.
    rewrite Hq. destruct (Song.playlist t), immediate.
    all: try (rewrite nth_error_app1 by assumption;
              rewrite skipn_app, !length_app, !length_skipn;
              replace (S c - List.length (queue s))%nat with O by lia;
              cbn; repeat split; lia).
    rewrite nth_error_app1 by (rewrite length_firstn; lia).
    rewrite nth_error_firstn.
    destruct (Nat.ltb_spec c (S c)); [|lia].
    rewrite skipn_app, length_firstn, Nat.min_l by lia.
    rewrite Nat.sub_diag, skipn_firstn_comm, Nat.sub_diag, firstn_O, skipn_O.
    cbn [app List.length]. repeat split. lia.
  - intros Hend. assert (c = List.length (queue s)) as Hc by lia.
    assert (queue (add t immediate s) = queue s ++ [Some t]) as Hq'.
    { rewrite Hq. destruct (Song.playlist t), immediate; try reflexivity.
      rewrite firstn_beyond, skipn_beyond by lia. reflexivity. }
    rewrite Hq'. rewrite nth_error_app2 by lia.
    replace (c - List.length (queue s))%nat with O by lia.
    rewrite skipn_beyond by (rewrite length_app; cbn; lia). split; reflexivity.
Qed.

Lemma add_views_witness :
  getQueue (add songC true (add songB false (add songA false (fresh "guild-1"))))
  = [Some songC; Some songB].
Proof.
  destruct (@add_views songC true (add songB false (add songA false (fresh "guild-1"))))
    as [H _].
  - vm_compute. split; discriminate.
  - destruct H as (_ & _ & Hq); [reflexivity|]. rewrite Hq. reflexivity.
Defined.

(** ** Starting and stopping playback *)

Lemma pending_clearTimer (h : nat) (s : State) : pending h (clearTimer h s) = false.
Proof.
  unfold pending, clearTimer. cbn [timeouts set_timeouts].
  induction (timeouts s) as [|t ts IH]; [reflexivity|].
  cbn [filter]. destruct (Nat.eqb (fst t) h) eqn:E; cbn [negb existsb]; [exact IH|].
  rewrite E. exact IH.
Qed.

(** [play()] on an engine that is not about to resume, when the stream is
    fetched: the engine is Playing the current track on a new audio player fed
    with that stream, the position counter runs, restarted from 0 unless the
    track's URL is the last one played, and a pending idle disconnect is
    cancelled; the queue and the cursor are untouched. *)
Theorem play_starts_track
    (w : World) (s s1 : State) (song : Song.t) (stream : Stream) :
  voiceConnection s <> None ->
  getCurrent s = Some song ->
  reachesFetch song s = true ->
  playFetch w song s = (Return stream, s1) ->
  let s' := snd (play w s) in
  fst (play w s) = Return tt
  /\ status s' = PLAYING
  /\ nowPlaying s' = Some song
  /\ lastSongURL s' = Song.url song
  /\ audioPlayer s'
     = Some {| ap_status := ApPlaying; ap_resource := Some stream; ap_idleListener := true |}
  /\ positionInSeconds s'
     = (if String.eqb (Song.url song) (lastSongURL s) then positionInSeconds s else 0)
  /\ playPositionInterval s' = true
  /\ queue s' = queue s
  /\ queuePosition s' = queuePosition s
  /\ disconnectTimer s' = None
  /\ (forall h, disconnectTimer s = Some h -> pending h s' = false).
Proof.
  intros Hvc Hcur Hreach Hfetch s'.
  assert (exists k, s1 = set_clock k (cancelDisconnectTimer s)) as [k Hs1].
  { unfold playFetch in Hfetch.
    destruct (getStream_clock w song (Some (Song.offset song))
                (Some (Song.length song + Song.offset song)) (cancelDisconnectTimer s))
      as [k Hk].
    rewrite Hfetch in Hk. exists k. exact Hk. }
  assert (play w s
          = (let s2 := set_nowPlaying (Some song) (set_status PLAYING
                         (attachListeners (set_audioPlayer (Some (ap_play stream)) s1))) in
             if String.eqb (Song.url song) (lastSongURL s2)
             then (Return tt, startTrackingPosition None s2)
             else (Return tt, set_lastSongURL (Song.url song)
                                (startTrackingPosition (Some 0) s2)))) as E.
  { apply (@play_run w 1%nat).
    rewrite (@play_unfold_fetch w s song O Hvc Hcur Hreach).
    unfold play_fetch. fold (playFetch w song s). rewrite Hfetch. cbv zeta.
    destruct (String.eqb _ _); reflexivity. }
  unfold s'. rewrite E. clear E s'. subst s1.
  assert (pending_after : forall h, disconnectTimer s = Some h ->
            pending h (cancelDisconnectTimer s) = false).
  { intros h Hh. unfold cancelDisconnectTimer. rewrite Hh.
    apply (pending_clearTimer h s). }
  assert (disconnectTimer (cancelDisconnectTimer s) = None) as Hdt
    by (unfold cancelDisconnectTimer; destruct (disconnectTimer s) eqn:Ed;
        [reflexivity|exact Ed]).
  assert (same : voiceConnection (cancelDisconnectTimer s) = voiceConnection s
                 /\ lastSongURL (cancelDisconnectTimer s) = lastSongURL s
                 /\ positionInSeconds (cancelDisconnectTimer s) = positionInSeconds s
                 /\ queue (cancelDisconnectTimer s) = queue s
                 /\ queuePosition (cancelDisconnectTimer s) = queuePosition s)
    by (unfold cancelDisconnectTimer; destruct (disconnectTimer s); repeat split).
  destruct same as (Hv & Hl & Hpos & Hq & Hp).
  unfold attachListeners. cbn [voiceConnection set_audioPlayer set_clock].
  rewrite Hv. destruct (voiceConnection s) as [vc|]; [|congruence].
  cbn -[String.eqb cancelDisconnectTimer]. rewrite Hl.
  destruct (String.eqb (Song.url song) (lastSongURL s)) eqn:Hsame;
    cbn -[cancelDisconnectTimer]; rewrite ?Hl, ?Hpos, ?Hq, ?Hp, ?Hdt;
    repeat split; try (apply String.eqb_eq in Hsame; congruence);
    intros h Hh; apply (pending_after h Hh).
Qed.

Lemma play_starts_track_witness :
  status (snd (play world_cached readyA)) = PLAYING
  /\ nowPlaying (snd (play world_cached readyA)) = Some songA.
Proof.
  destruct (@play_starts_track world_cached readyA
              (snd (playFetch world_cached songA readyA)) songA
              (createReadStream world_cached (Song.url songA) (Some (["-to"; "180"], false))))
    as (_ & Hst & Hnp & _).
  - discriminate.
  - reflexivity.
  - reflexivity.
  - vm_compute. reflexivity.
  - split; assumption.
Defined.

(** [play()] checks the connection before the queue and fails without changing
    anything: NotConnected on an engine without a voice connection, whatever
    its queue, and QueueEmpty on a connected engine with no track at the
    cursor; a pending idle disconnect is not cancelled in either case. *)
Theorem play_preconditions (w : World) (s : State) :
  (voiceConnection s = None -> play w s = (Throw NotConnected, s))
  /\ (voiceConnection s <> None -> getCurrent s = None ->
      play w s = (Throw QueueEmpty, s)).
Proof.
  split.
  - intros Hvc. apply (@play_run w 1%nat). cbn [play_n]. unfold play_with.
    rewrite Hvc. reflexivity.
  - intros Hvc Hcur. apply (@play_run w 1%nat). cbn [play_n]. unfold play_with.
    destruct (voiceConnection s); [|congruence]. rewrite Hcur. reflexivity.
Qed.

Lemma play_preconditions_witness :
  play world_cached (fresh "guild-1") = (Throw NotConnected, fresh "guild-1")
  /\ play world_cached (connect channel1 (fresh "guild-1"))
     = (Throw QueueEmpty, connect channel1 (fresh "guild-1")).
Proof.
  split.
  - apply (play_preconditions world_cached (fresh "guild-1")). reflexivity.
  - apply (play_preconditions world_cached (connect channel1 (fresh "guild-1")));
      [discriminate|reflexivity].
Defined.

Lemma disconnect_no_connection (s : State) : voiceConnection (disconnect s) = None.
Proof.
  unfold disconnect. destruct (voiceConnection s) eqn:E; [reflexivity|exact E].
Qed.

(** [stop()] leaves an engine with no connection, an empty queue and the
    cursor at 0, and is idempotent; after it [play()] fails with NotConnected,
    and once reconnected with QueueEmpty, until a track is added. *)
Theorem stop_resets (w : World) (s : State) (channel : VoiceChannel) :
  queue (stop s) = []
  /\ queuePosition (stop s) = 0
  /\ voiceConnection (stop s) = None
  /\ getCurrent (stop s) = None
  /\ stop (stop s) = stop s
  /\ play w (stop s) = (Throw NotConnected, stop s)
  /\ play w (connect channel (stop s)) = (Throw QueueEmpty, connect channel (stop s)).
Proof.
  assert (voiceConnection (stop s) = None) as Hvc.
  { unfold stop. cbn [voiceConnection set_queue set_queuePosition].
    apply disconnect_no_connection. }
  assert (getCurrent (stop s) = None) as Hcur by reflexivity.
  split; [reflexivity|]. split; [reflexivity|]. split; [exact Hvc|].
  split; [exact Hcur|]. split; [|split].
  - unfold stop at 1. unfold disconnect at 1. rewrite Hvc. reflexivity.
  - apply (@play_run w 1%nat). cbn [play_n]. unfold play_with. rewrite Hvc. reflexivity.
  - apply (@play_run w 1%nat). cbn [play_n]. unfold play_with. cbn [voiceConnection connect
      set_voiceConnection].
    change (getCurrent (connect channel (stop s))) with (getCurrent (stop s)).
    rewrite Hcur. reflexivity.
Qed.

(** The handler of the audio player's end-of-stream event does nothing unless
    the status is Playing; when Playing it re-seeks the same track to 0 in loop
    mode, which never moves the cursor, and calls [forward(1)] otherwise.  In
    particular, after a [seek] that failed as out of range, which has left the
    status Paused, the end of the stream still playing is ignored. *)
Theorem end_of_stream_handler (w : World) (s : State) :
  (status s <> PLAYING -> onAudioPlayerIdle w s = (Return tt, s))
  /\ (status s = PLAYING -> loopCurrentSong s = true ->
      onAudioPlayerIdle w s = seek w 0 s
      /\ queuePosition (snd (onAudioPlayerIdle w s)) = queuePosition s
      /\ queue (snd (onAudioPlayerIdle w s)) = queue s)
  /\ (status s = PLAYING -> loopCurrentSong s = false ->
      onAudioPlayerIdle w s = forward w 1 s)
  /\ (forall p song,
        voiceConnection s <> None -> getCurrent s = Some song -> p > Song.length song ->
        onAudioPlayerIdle w (snd (seek w p s)) = (Return tt, snd (seek w p s))).
Proof.
  assert (forall t, status t <> PLAYING -> onAudioPlayerIdle w t = (Return tt, t)) as Hskip.
  { intros t Hst. unfold onAudioPlayerIdle, run, onAudioPlayerIdle_n.
    destruct (status t); try congruence; cbn; rewrite andb_false_r; reflexivity. }
  split; [apply Hskip|]. split; [|split].
  - intros Hst Hloop.
    assert (onAudioPlayerIdle w s = seek w 0 s) as E.
    { unfold onAudioPlayerIdle, run, onAudioPlayerIdle_n. rewrite Hst, Hloop. reflexivity. }
    rewrite E. destruct (seek_same_cursor w 0 s) as [Hq Hp]. auto.
  - intros Hst Hloop. unfold onAudioPlayerIdle, forward, run, onAudioPlayerIdle_n.
    rewrite Hst, Hloop. reflexivity.
  - intros p song Hvc Hcur Hp. apply Hskip.
    unfold seek. cbn [voiceConnection set_status].
    destruct (voiceConnection s); [|congruence].
    change (getCurrent (set_status PAUSED s)) with (getCurrent s). rewrite Hcur.
    destruct (Z.gtb_spec p (Song.length song)); [|lia]. cbn. discriminate.
Qed.

Lemma end_of_stream_handler_witness :
  onAudioPlayerIdle world_cached (snd (seek world_cached 181 playingA))
  = (Return tt, snd (seek world_cached 181 playingA)).
Proof.
  destruct (end_of_stream_handler world_cached playingA) as (_ & _ & _ & H).
  apply (H 181 songA).
  - discriminate.
  - reflexivity.
  - reflexivity.
Defined.

(** ** Player, connection and status agree *)

Section Consistent.
Variable w : World.

Lemma consistent_clock (k : nat) (s : State) : consistent s -> consistent (set_clock k s).
Proof. intros H. exact H. Qed.

Lemma getStream_consistent (song : Song.t) (seek to : option Z) (s : State) :
  consistent s -> consistent (snd (getStream w song seek to s)).
Proof.
  intros H. destruct (getStream_clock w song seek to s) as [k ->]. exact H.
Qed.











End Consistent.




(** ** How much one call asks of the collaborators *)

Section Budget.
Variable w : World.

Lemma calls_within_refl (b : nat) (s : State) : calls_within b s s.
Proof. unfold calls_within. lia. Qed.

Lemma getStream_calls (song : Song.t) (seek to : option Z) (s : State) :
  calls_within 2 s (snd (getStream w song seek to s)).
Proof.
  unfold getStream, calls_within. destruct (Song.source song); [|cbn; lia].
  destruct (getPathFor w _ _); [cbn; lia|]. cbn [clock tick set_clock].
  destruct (getInfo w _ _) as [info|e]; [destruct (selectFormat _)|]; cbn; lia.
Qed.

Lemma seek_calls (p : Z) (s : State) : calls_within 2 s (snd (seek w p s)).
Proof.
  unfold seek. cbn [voiceConnection set_status].
  destruct (voiceConnection s); [|apply (calls_within_refl 2 s)].
  destruct (getCurrent _) as [song|]; [|apply (calls_within_refl 2 s)].
  destruct (p >? Song.length song); [apply (calls_within_refl 2 s)|].
  match goal with |- context [getStream w song ?a ?b ?t] =>
    pose proof (getStream_calls song a b t) as Hg;
    destruct (getStream_clock w song a b t) as [k Hk];
    destruct (getStream w song a b t) as [[stream|e] s1] end;
    cbn [snd] in *; subst s1; unfold calls_within in *; cbn in *; [|exact Hg].
  unfold attachListeners. cbn. destruct (voiceConnection s); cbn; exact Hg.
Qed.

Lemma goIdle_calls (s : State) : calls_within 1 s (snd (goIdle w s)).
Proof.
  unfold goIdle, stopAudioPlayer, calls_within.
  destruct (audioPlayer s); cbn; destruct (findUnique w _ _) as [n|]; cbn;
    try destruct (n =? 0); cbn; lia.
Qed.

Lemma forward_with_calls (play_ : MF unit) (skip : Z) :
  (forall s r s', play_ s = Some (r, s') -> calls_within (2 * remaining s + 1) s s') ->
  forall s r s', forward_with w play_ skip s = Some (r, s') ->
                 calls_within (2 * remaining (advanced skip s) + 1) s s'.
Proof.
  intros Hplay s r s'. unfold forward_with, advanced.
  destruct (manualForward skip s) as [[u|e] s1] eqn:Em.
  2:{ intros E. injection E as _ <-. unfold manualForward in Em.
      destruct (canGoForward skip s); [discriminate|]. injection Em as _ <-.
      unfold calls_within. lia. }
  assert (clock s1 = clock s) as Hck.
  { unfold manualForward in Em. destruct (canGoForward skip s); [|discriminate].
    inversion Em. reflexivity. }
  cbn [snd].
  assert (forall r2 s2, calls_within (2 * remaining s1 + 1) s1 s2 ->
            forward_catch (r2, s2) = (r, s') ->
            calls_within (2 * remaining s1 + 1) s s') as Hcatch.
  { intros r2 s2 H2 E. unfold calls_within in *. rewrite Hck in H2.
    destruct r2; injection E as _ <-; cbn; exact H2. }
  assert (option_map forward_catch (Some (goIdle w s1)) = Some (r, s') ->
          calls_within (2 * remaining s1 + 1) s s') as Hidle.
  { intros E. injection E as E. pose proof (goIdle_calls s1) as Hg.
    destruct (goIdle w s1) as [r2 s2]. apply (Hcatch r2 s2); [|exact E].
    unfold calls_within in *. cbn [snd] in Hg. lia. }
  destruct (getCurrent s1); [|exact Hidle].
  destruct (negb _); [|exact Hidle].
  destruct (play_ s1) as [[r2 s2]|] eqn:E; [|discriminate].
  intros E2. injection E2 as E2. apply (Hcatch r2 s2); [|exact E2].
  apply (Hplay _ _ _ E).
Qed.

Lemma play_with_calls (forward1 : MF unit) :
  (forall s r s', forward1 s = Some (r, s') ->
                  calls_within (2 * remaining (advanced 1 s) + 1) s s') ->
  forall s r s', play_with w forward1 s = Some (r, s') ->
                 calls_within (2 * remaining s + 1) s s'.
Proof.
  intros Hfwd s r s'. unfold play_with.
  destruct (voiceConnection s).
  2:{ intros E. injection E as _ <-. apply calls_within_refl. }
  destruct (getCurrent s) as [song|] eqn:Hcur.
  2:{ intros E. injection E as _ <-. apply calls_within_refl. }
  assert (1 <= remaining s)%nat as Hrem.
  { apply getCurrent_range in Hcur. unfold remaining, Js.len in *.
    destruct (Z.ltb_spec (queuePosition s) 0); lia. }
  pose proof (cancelDisconnectTimer_same_cursor s) as [Hq0 Hp0].
  assert (clock (cancelDisconnectTimer s) = clock s) as Hck0
    by (unfold cancelDisconnectTimer; destruct (disconnectTimer s); reflexivity).
  set (s0 := cancelDisconnectTimer s) in *.
  assert (play_fetch w forward1 song s0 = Some (r, s') ->
          calls_within (2 * remaining s + 1) s s') as Hfetch.
  { unfold play_fetch.
    match goal with |- context [getStream w song ?a ?b s0] =>
      pose proof (getStream_calls song a b s0) as Hg;
      pose proof (getStream_same_cursor w song a b s0) as [Hq1 Hp1];
      destruct (getStream_clock w song a b s0) as [k Hk];
      destruct (getStream w song a b s0) as [[stream|error] s1] end; cbn [snd] in *.
    - unfold calls_within in *. subst s1.
      assert (forall t, clock (attachListeners t) = clock t) as Hal
        by (intros t; unfold attachListeners; destruct (voiceConnection t);
            [destruct (audioPlayer _)|]; reflexivity).
      destruct (String.eqb _ _); intros E; injection E as _ <-; cbn;
        rewrite Hal; cbn in *; lia.
    - destruct (forward1 s1) as [[r2 s2]|] eqn:E; [|discriminate].
      apply Hfwd in E.
      assert (S (remaining (advanced 1 s1)) = remaining s) as Hnext.
      { apply remaining_next; [congruence| |].
        - unfold advanced, manualForward. destruct (canGoForward 1 s1); cbn; congruence.
        - assert (canGoForward 1 s1 = true) as Hcan.
          { apply getCurrent_range in Hcur. unfold canGoForward.
            rewrite Hq1, Hp1, Hq0, Hp0. apply Z.ltb_lt. lia. }
          unfold advanced, manualForward. rewrite Hcan. cbn. congruence. }
      unfold calls_within in *.
      destruct r2 as [u|e]; [destruct (_ && _)|]; intros E2; injection E2 as _ <-; lia. }
  destruct (resumes song s0); [|exact Hfetch].
  destruct (audioPlayer s0).
  - intros E. injection E as _ <-. unfold calls_within. cbn. lia.
  - destruct (negb _); [|exact Hfetch].
    intros E. injection E as E. pose proof (seek_calls (getPosition s0) s0) as Hs.
    rewrite E in Hs. unfold calls_within in *. cbn [snd] in Hs. lia.
Qed.

Lemma play_n_calls (n : nat) (s : State) (r : Completion unit) (s' : State) :
  play_n w n s = Some (r, s') -> calls_within (2 * remaining s + 1) s s'.
Proof.
  revert s r s'. induction n as [|n IH]; intros s r s'; [discriminate|].
  cbn [play_n]. apply play_with_calls, forward_with_calls. exact IH.
Qed.

End Budget.

(** One call of [play()] or [forward(skip)] always returns, after asking the
    file cache and the resolver at most once for each queue entry from the
    cursor (for [forward], the advanced cursor) on, and the settings at most
    once: no more than [2k+1] external calls for [k] such entries, which are
    never more than the queue holds. *)
Theorem play_call_budget (w : World) (s : State) (skip : Z) :
  calls_within (2 * remaining s + 1) s (snd (play w s))
  /\ calls_within (2 * remaining (advanced skip s) + 1) s (snd (forward w skip s))
  /\ (remaining s <= List.length (queue s))%nat
  /\ (remaining (advanced skip s) <= List.length (queue s))%nat.
Proof.
  split; [|split; [|split]].
  - pose proof (play_returns w s) as E. destruct (play w s) as [r s'].
    eapply play_n_calls, E.
  - pose proof (forward_returns w skip s) as E. destruct (forward w skip s) as [r s'].
    eapply forward_with_calls; [|exact E]. intros ? ? ?. apply play_n_calls.
  - apply remaining_le_length.
  - pose proof (remaining_le_length (advanced skip s)) as H.
    unfold advanced, manualForward in *. destruct (canGoForward skip s); exact H.
Qed.

(** ** The disconnect timeouts *)

Lemma disconnect_timeouts (s : State) : timeouts (disconnect s) = timeouts s.
Proof.
  destruct s as [g vc st lp q qp ap np pi lu ps dt ts nt ck].
  unfold disconnect, pause, stopAudioPlayer. cbn.
  destruct vc; [|reflexivity]. destruct st, ap; reflexivity.
Qed.

Lemma pending_clearTimer_other (h h' : nat) (s : State) :
  h' <> h -> pending h' (clearTimer h s) = pending h' s.
Proof.
  intros Hne. unfold pending, clearTimer. cbn [timeouts set_timeouts].
  induction (timeouts s) as [|t ts IH]; [reflexivity|].
  cbn [filter existsb]. destruct (Nat.eqb_spec (fst t) h) as [E|E]; cbn [negb existsb].
  - rewrite IH. destruct (Nat.eqb_spec (fst t) h'); [congruence|reflexivity].
  - rewrite IH. reflexivity.
Qed.

(** A timeout fires at most once: after its callback has run it is no longer
    pending and firing it again changes nothing.  The callback leaves the other
    pending timeouts, the queue and the cursor as they were. *)
Theorem timeout_fires_once (h : nat) (s : State) :
  pending h (timeoutFires h s) = false
  /\ timeoutFires h (timeoutFires h s) = timeoutFires h s
  /\ (forall h', h' <> h -> pending h' (timeoutFires h s) = pending h' s)
  /\ queue (timeoutFires h s) = queue s
  /\ queuePosition (timeoutFires h s) = queuePosition s.
Proof.
  assert (forall t, timeouts (disconnectIfIdle t) = timeouts t) as Hd.
  { intros t. unfold disconnectIfIdle. destruct (STATUS_eqb _ _); [|reflexivity].
    apply disconnect_timeouts. }
  assert (pending h (timeoutFires h s) = false) as Hgone.
  { unfold timeoutFires. fold (pending h s). destruct (pending h s) eqn:Hp; [|exact Hp].
    unfold pending. rewrite Hd. apply (pending_clearTimer h s). }
  split; [exact Hgone|]. split; [|split; [|split]].
  - unfold timeoutFires at 1. fold (pending h (timeoutFires h s)). rewrite Hgone. reflexivity.
  - intros h' Hne. unfold timeoutFires. fold (pending h s).
    destruct (pending h s); [|reflexivity].
    unfold pending at 1. rewrite Hd. apply (pending_clearTimer_other s Hne).
  - unfold timeoutFires, disconnectIfIdle. destruct (existsb _ _); [|reflexivity].
    destruct (STATUS_eqb _ _); [|reflexivity].
    destruct (disconnect_same_cursor (clearTimer h s)) as [Hq _]. exact Hq.
  - unfold timeoutFires, disconnectIfIdle. destruct (existsb _ _); [|reflexivity].
    destruct (STATUS_eqb _ _); [|reflexivity].
    destruct (disconnect_same_cursor (clearTimer h s)) as [_ Hp]. exact Hp.
Qed.

Lemma timeout_fires_once_witness :
  timeouts twoTimers = [(0%nat, 30000); (1%nat, 30000)]
  /\ pending 1 (timeoutFires 0 twoTimers) = true.
Proof.
  split; [reflexivity|].
  destruct (timeout_fires_once 0 twoTimers) as (_ & _ & H & _).
  rewrite H; [reflexivity|discriminate].
Defined.

(** ** Seeking and skipping back and forth *)

(** [seek(p)] within the track, when the stream is fetched: the engine is
    Playing at position [p] on a new audio player, fed with the stream asked
    for from [p + offset] to the end of the track; the queue, the cursor and
    the record of what was last played are untouched. *)
Theorem seek_starts_at_position
    (w : World) (s s1 : State) (song : Song.t) (p : Z) (stream : Stream) :
  voiceConnection s <> None ->
  getCurrent s = Some song ->
  p <= Song.length song ->
  getStream w song (Some (p + Song.offset song))
    (Some (Song.length song + Song.offset song)) (set_status PAUSED s)
  = (Return stream, s1) ->
  let s' := snd (seek w p s) in
  fst (seek w p s) = Return tt
  /\ status s' = PLAYING
  /\ positionInSeconds s' = p
  /\ playPositionInterval s' = true
  /\ audioPlayer s'
     = Some {| ap_status := ApPlaying; ap_resource := Some stream; ap_idleListener := true |}
  /\ nowPlaying s' = nowPlaying s
  /\ lastSongURL s' = lastSongURL s
  /\ queue s' = queue s
  /\ queuePosition s' = queuePosition s.
Proof.
  intros Hvc Hcur Hp Hfetch s'. unfold s'. clear s'.
  assert (exists k, s1 = set_clock k (set_status PAUSED s)) as [k ->].
  { destruct (getStream_clock w song (Some (p + Song.offset song))
                (Some (Song.length song + Song.offset song)) (set_status PAUSED s))
      as [k Hk].
    rewrite Hfetch in Hk. exists k. exact Hk. }
  unfold seek. cbn [voiceConnection set_status].
  destruct (voiceConnection s) as [vc|] eqn:Ev; [|congruence].
  change (getCurrent (set_status PAUSED s)) with (getCurrent s). rewrite Hcur.
  destruct (Z.gtb_spec p (Song.length song)); [lia|].
  fold (set_status PAUSED s). rewrite Hfetch.
  unfold attachListeners. cbn [voiceConnection set_audioPlayer set_clock set_status].
  rewrite Ev. cbn. repeat split.
Qed.

Lemma seek_starts_at_position_witness :
  status (snd (seek world_cached 30 readyA)) = PLAYING
  /\ positionInSeconds (snd (seek world_cached 30 readyA)) = 30
  /\ nowPlaying (snd (seek world_cached 30 readyA)) = None.
Proof.
  destruct (@seek_starts_at_position world_cached readyA
              (snd (getStream world_cached songA (Some 30) (Some 180) (set_status PAUSED readyA)))
              songA 30
              (createReadStream world_cached (Song.url songA)
                 (Some (["-ss"; "30"; "-to"; "180"], false))))
    as (_ & Hst & Hpos & _ & _ & Hnp & _).
  - discriminate.
  - reflexivity.
  - vm_compute. discriminate.
  - vm_compute. reflexivity.
  - split; [exact Hst|]. split; [exact Hpos|]. rewrite Hnp. reflexivity.
Defined.

Lemma play_fetched
    (w : World) (s : State) (song : Song.t) (stream : Stream) :
  voiceConnection s <> None ->
  getCurrent s = Some song ->
  reachesFetch song s = true ->
  fst (playFetch w song s) = Return stream ->
  fst (play w s) = Return tt
  /\ status (snd (play w s)) = PLAYING
  /\ nowPlaying (snd (play w s)) = Some song
  /\ voiceConnection (snd (play w s)) <> None
  /\ queue (snd (play w s)) = queue s
  /\ queuePosition (snd (play w s)) = queuePosition s.
Proof.
  intros Hvc Hcur Hreach Hfetch.
  destruct (playFetch w song s) as [c s1] eqn:Ef. cbn [fst] in Hfetch. subst c.
  pose proof (play_returns w s) as Hret.
  assert (play w s
          = (let s2 := set_nowPlaying (Some song) (set_status PLAYING
                         (attachListeners (set_audioPlayer (Some (ap_play stream)) s1))) in
             if String.eqb (Song.url song) (lastSongURL s2)
             then (Return tt, startTrackingPosition None s2)
             else (Return tt, set_lastSongURL (Song.url song)
                                (startTrackingPosition (Some 0) s2)))) as E.
  { apply (@play_run w 1%nat).
    rewrite (@play_unfold_fetch w s song O Hvc Hcur Hreach).
    unfold play_fetch. fold (playFetch w song s). rewrite Ef. cbv zeta.
    destruct (String.eqb _ _); reflexivity. }
  assert (same_cursor s s1 /\ voiceConnection s1 = voiceConnection s) as [[Hq Hp] Hv].
  { unfold playFetch in Ef.
    pose proof (getStream_same_cursor w song (Some (Song.offset song))
                  (Some (Song.length song + Song.offset song)) (cancelDisconnectTimer s)) as Hs.
    destruct (getStream_clock w song (Some (Song.offset song))
                (Some (Song.length song + Song.offset song)) (cancelDisconnectTimer s))
      as [k Hk].
    rewrite Ef in Hs, Hk. cbn [snd] in Hs, Hk. split.
    - eapply same_cursor_trans; [apply cancelDisconnectTimer_same_cursor|exact Hs].
    - subst s1. unfold cancelDisconnectTimer. destruct (disconnectTimer s); reflexivity. }
  rewrite E. unfold attachListeners. cbn [voiceConnection set_audioPlayer].
  rewrite Hv. destruct (voiceConnection s) as [vc|]; [|congruence].
  cbv zeta. destruct (String.eqb _ _); cbn; repeat split; try discriminate; assumption.
Qed.

Lemma forward_plays_next (w : World) (skip : Z) (s : State) (song : Song.t) :
  canGoForward skip s = true ->
  getCurrent (advanced skip s) = Some song ->
  status s <> PAUSED ->
  forward w skip s = forward_catch (play w (advanced skip s)).
Proof.
  intros Hcan Hcur Hst. pose proof (forward_returns w skip s) as E.
  unfold forward_n, forward_with in E. unfold advanced in *.
  destruct (manualForward skip s) as [[u|e] s1] eqn:Em.
  2:{ unfold manualForward in Em. rewrite Hcan in Em. discriminate. }
  cbn [snd] in *. rewrite Hcur in E.
  assert (status s1 = status s /\ queue s1 = queue s) as [Hs1 Hq1].
  { unfold manualForward in Em. rewrite Hcan in Em. inversion Em. split; reflexivity. }
  rewrite Hs1 in E. destruct (status s); try congruence; cbn [STATUS_eqb negb] in E.
  - destruct (play_n_fuel w s1 s (eq_sym Hq1)) as [r Hr]. rewrite Hr in E.
    rewrite (@play_run w _ _ _ Hr). cbn in E. congruence.
  - destruct (play_n_fuel w s1 s (eq_sym Hq1)) as [r Hr]. rewrite Hr in E.
    rewrite (@play_run w _ _ _ Hr). cbn in E. congruence.
Qed.

Lemma back_plays_previous (w : World) (s : State) :
  canGoBack s = true ->
  status s <> PAUSED ->
  back w s = play w (stopTrackingPosition
                       (set_positionInSeconds 0 (set_queuePosition (queuePosition s - 1) s))).
Proof.
  intros Hcan Hst. pose proof (back_returns w s) as E. unfold back_n in E.
  rewrite Hcan in E.
  change (status (stopTrackingPosition _)) with (status s) in E.
  set (s1 := stopTrackingPosition _) in *.
  destruct (play_n_fuel w s1 s eq_refl) as [r Hr].
  destruct (status s); try congruence; cbn [STATUS_eqb negb] in E;
    rewrite Hr in E; rewrite (@play_run w _ _ _ Hr); congruence.
Qed.

(** Skipping to the next track and back again returns to the track the engine
    was on: on a connected engine that is not Paused, with a track at the
    cursor and one after it whose streams can both be fetched, [forward(1)]
    plays the next track and a following [back()] plays the first one again,
    with the cursor and the queue as they were before. *)
Theorem forward_back_round_trip (w : World) (s : State) (song next : Song.t) :
  voiceConnection s <> None ->
  status s <> PAUSED ->
  getCurrent s = Some song ->
  getCurrent (advanced 1 s) = Some next ->
  fetchable w song -> fetchable w next ->
  let s1 := snd (forward w 1 s) in
  let s2 := snd (back w s1) in
  fst (forward w 1 s) = Return tt
  /\ queuePosition s1 = queuePosition s + 1
  /\ nowPlaying s1 = Some next
  /\ fst (back w s1) = Return tt
  /\ queuePosition s2 = queuePosition s
  /\ queue s2 = queue s
  /\ nowPlaying s2 = Some song
  /\ status s2 = PLAYING.
Proof.
  intros Hvc Hst Hcur Hnext Hsong Hnxt s1 s2.
  pose proof (getCurrent_range _ Hcur) as Hrange.
  assert (canGoForward 1 s = true) as Hcan
    by (unfold canGoForward; apply Z.ltb_lt; lia).
  assert (advanced 1 s = stopTrackingPosition
            (set_positionInSeconds 0 (set_queuePosition (queuePosition s + 1) s))) as Hadv
    by (unfold advanced, manualForward; rewrite Hcan; reflexivity).
  assert (forall t x, status t <> PAUSED -> reachesFetch x t = true) as Hreach.
  { intros t x Ht. unfold reachesFetch, resumes.
    destruct (status t); try congruence; reflexivity. }
  (* forward(1) plays the next track *)
  destruct (Hnxt (advanced 1 s)) as [stream1 Hf1].
  assert (voiceConnection (advanced 1 s) <> None /\ status (advanced 1 s) <> PAUSED)
    as [Hvc1 Hst1] by (rewrite Hadv; split; assumption).
  destruct (@play_fetched w (advanced 1 s) next stream1 Hvc1 Hnext (Hreach _ _ Hst1) Hf1)
    as (Hr1 & Hs1 & Hn1 & Hv1 & Hq1 & Hp1).
  assert (forward w 1 s = play w (advanced 1 s)) as Efwd.
  { rewrite (@forward_plays_next w 1 s next Hcan Hnext Hst).
    destruct (play w (advanced 1 s)) as [[[]|e] t]; [reflexivity|discriminate]. }
  assert (queuePosition s1 = queuePosition s + 1 /\ queue s1 = queue s) as [Hc1 Hqq1].
  { unfold s1. rewrite Efwd, Hp1, Hq1, Hadv. split; reflexivity. }
  (* back() plays the first track again *)
  assert (canGoBack s1 = true) as Hback
    by (unfold canGoBack; rewrite Hc1; apply Z.geb_le; lia).
  assert (status s1 <> PAUSED) as Hst2 by (unfold s1; rewrite Efwd, Hs1; discriminate).
  set (s1' := stopTrackingPosition
                (set_positionInSeconds 0 (set_queuePosition (queuePosition s1 - 1) s1))).
  assert (back w s1 = play w s1') as Eback by (apply back_plays_previous; assumption).
  assert (getCurrent s1' = Some song) as Hcur2.
  { unfold getCurrent in *. cbn [s1' queue queuePosition stopTrackingPosition
      set_playPositionInterval set_positionInSeconds set_queuePosition].
    rewrite Hqq1, Hc1. replace (queuePosition s + 1 - 1) with (queuePosition s) by lia.
    exact Hcur. }
  assert (voiceConnection s1' <> None /\ status s1' <> PAUSED) as [Hvc2 Hst3].
  { split; [|exact Hst2]. unfold s1', s1. cbn. rewrite Efwd. exact Hv1. }
  destruct (Hsong s1') as [stream2 Hf2].
  destruct (@play_fetched w s1' song stream2 Hvc2 Hcur2 (Hreach _ _ Hst3) Hf2)
    as (Hr2 & Hs2 & Hn2 & _ & Hq2 & Hp2).
  unfold s2. rewrite Eback.
  split; [rewrite Efwd; exact Hr1|]. split; [exact Hc1|].
  split; [unfold s1; rewrite Efwd; exact Hn1|]. split; [exact Hr2|].
  split; [rewrite Hp2; cbn; lia|]. split; [rewrite Hq2; exact Hqq1|].
  split; [exact Hn2|exact Hs2].
Qed.

Lemma fetchable_world_cached (song : Song.t) : fetchable world_cached song.
Proof.
  intros s. unfold playFetch, getStream. destruct (Song.source song); cbn; eexists; reflexivity.
Qed.

Lemma forward_back_round_trip_witness :
  queuePosition (snd (back world_cached (snd (forward world_cached 1 playingA)))) = 0
  /\ nowPlaying (snd (back world_cached (snd (forward world_cached 1 playingA)))) = Some songA.
Proof.
  destruct (@forward_back_round_trip world_cached playingA songA songB)
    as (_ & _ & _ & _ & Hc & _ & Hn & _).
  - discriminate.
  - discriminate.
  - reflexivity.
  - reflexivity.
  - apply fetchable_world_cached.
  - apply fetchable_world_cached.
  - split; [exact Hc|exact Hn].
Defined.
